(** * SpotifyPlaylistRankings: playlist_audio_feature_rankings.py

    A shallow embedding of the script's five functions and of [main], and the
    properties of them that the specification states.

    Conventions of the embedding:
    - a Python [dict] is an association list in insertion order ([dict]):
      assigning to a key that is present keeps its position, assigning to a
      new key appends it, as CPython does;
    - Python numbers ([int] and [float]) are an abstract type [num] with the
      operations the script applies to them (class [Number]); [+] and [/]
      can raise OverflowError; nothing is assumed about the operations
      except, for ranking, that [<] is a strict weak order (class
      [NumberOrder]); the rationals are an instance, Python's ints with
      floats of bounded range another;
    - a Python exception is a [Raise e] result; the calls made to the Spotify
      client and the lines printed are recorded in a [world];
    - a [while] loop takes fuel: [None] means that the fuel ran out. *)

From Stdlib Require Import List String Ascii Bool Arith ZArith QArith Lia.
From Stdlib Require Import Permutation Sorted DecimalString.
Import ListNotations.
Local Open Scope string_scope.
Local Open Scope list_scope.
Local Open Scope nat_scope.

Set Implicit Arguments.

(** ** Python values *)

(** The numbers of the script and the operations it uses on them. *)
Class Number (num : Type) : Type := {
  zero : num;                       (* the int 0 *)
  add : num -> num -> option num;   (* x + y, None for OverflowError *)
  div_count : num -> nat -> option num;
                                    (* x / n for an int n <> 0, None for
                                       OverflowError *)
  round2 : num -> num;              (* round(x, 2) of a quotient *)
  lt : num -> num -> bool;          (* x < y *)
  show : num -> string              (* str(x), as an f-string renders it *)
}.

(** The exceptions the script can raise by itself. *)
Inductive exn : Type :=
| KeyError (key : string)
| TypeError
| ZeroDivisionError
| OverflowError.

Inductive result (A : Type) : Type :=
| Ok (a : A)
| Raise (e : exn).

Arguments Ok {A} a.
Arguments Raise {A} e.

(** A JSON scalar, as the fields of an audio-features object are. *)
Inductive pyval (num : Type) : Type :=
| PyNone
| PyNum (x : num)
| PyStr (s : string).

Arguments PyNone {num}.
Arguments PyNum {num} x.
Arguments PyStr {num} s.

(** ** Insertion-ordered dictionaries *)

Module Dict.

Definition dict (V : Type) : Type := list (string * V).

Section Ops.
Context {V : Type}.

Fixpoint get (k : string) (d : dict V) : option V :=
  match d with
  | [] => None
  | (k', v) :: r => if String.eqb k' k then Some v else get k r
  end.

(** [d[k] = v] *)
Fixpoint set (k : string) (v : V) (d : dict V) : dict V :=
  match d with
  | [] => [(k, v)]
  | (k', v') :: r =>
      if String.eqb k' k then (k', v) :: r else (k', v') :: set k v r
  end.

Definition keys (d : dict V) : list string := map fst d.

(** The dictionary with the keys [ks], in that order, and the values [g]. *)
Definition tabulate (g : string -> V) (ks : list string) : dict V :=
  map (fun k => (k, g k)) ks.

End Ops.
End Dict.

Import Dict.

(** ** Loops that can raise *)

(** [for x in l: s = f(s, x)], stopping at the first exception. *)
Fixpoint for_each {A S : Type} (f : S -> A -> result S) (l : list A) (s : S)
  : result S :=
  match l with
  | [] => Ok s
  | x :: r =>
      match f s x with
      | Ok s' => for_each f r s'
      | Raise e => Raise e
      end
  end.

(** ** average_audio_features *)

Section Average.
Context {num : Type} {N : Number num}.

(** One element of the list [sp.audio_features] returns: an object, or
    [None] for an id without features. *)
Definition feature : Type := option (dict (pyval num)).

Definition cumulative_audio_features : dict num :=
  [ ("danceability", zero);
    ("energy", zero);
    ("loudness", zero);
    ("speechiness", zero);
    ("acousticness", zero);
    ("instrumentalness", zero);
    ("liveness", zero);
    ("valence", zero);
    ("tempo", zero) ].

(** [audio_feature[category]] *)
Definition subscript (audio_feature : feature) (category : string)
  : result (pyval num) :=
  match audio_feature with
  | None => Raise TypeError
  | Some d =>
      match get category d with
      | Some v => Ok v
      | None => Raise (KeyError category)
      end
  end.

(** [total + v] for a number [total] *)
Definition py_add (total : num) (v : pyval num) : result num :=
  match v with
  | PyNum x =>
      match add total x with
      | Some sum => Ok sum
      | None => Raise OverflowError
      end
  | PyNone | PyStr _ => Raise TypeError
  end.

(** [cumulative_audio_features[category] += audio_feature[category]] *)
Definition accumulate (audio_feature : feature) (cumulative : dict num)
  (category : string) : result (dict num) :=
  match get category cumulative with
  | None => Raise (KeyError category)
  | Some total =>
      match subscript audio_feature category with
      | Raise e => Raise e
      | Ok v =>
          match py_add total v with
          | Raise e => Raise e
          | Ok total' => Ok (set category total' cumulative)
          end
      end
  end.

(** [total / num_tracks] *)
Definition py_div (total : num) (num_tracks : nat) : result num :=
  match num_tracks with
  | O => Raise ZeroDivisionError
  | S _ =>
      match div_count total num_tracks with
      | Some quotient => Ok quotient
      | None => Raise OverflowError
      end
  end.

Definition average_audio_features (audio_features : list feature)
  : result (dict num) :=
  let num_tracks := List.length audio_features in
  match
    for_each
      (fun cumulative audio_feature =>
         for_each (accumulate audio_feature) (keys cumulative) cumulative)
      audio_features cumulative_audio_features
  with
  | Raise e => Raise e
  | Ok cumulative =>
      for_each
        (fun averages item =>
           match py_div (snd item) num_tracks with
           | Raise e => Raise e
           | Ok q => Ok (set (fst item) (round2 q) averages)
           end)
        cumulative []
  end.

End Average.

(** ** The world: calls to the Spotify client, and standard output *)

Inductive call : Type :=
| CurrentUserPlaylists
| PlaylistItems (playlist_id : string)
| Next (url : string)
| AudioFeatures (tracks : list string).

Record world : Type := World {
  calls : list call;        (* requests sent, oldest first *)
  stdout : list string      (* one entry per [print] *)
}.

Definition empty_world : world := World [] [].

(** A computation: [None] when a loop ran out of fuel. *)
Definition M (A : Type) : Type := world -> option (result A * world).

Definition ret {A : Type} (a : A) : M A := fun w => Some (Ok a, w).

Definition bind {A B : Type} (m : M A) (k : A -> M B) : M B :=
  fun w =>
    match m w with
    | None => None
    | Some (Raise e, w') => Some (Raise e, w')
    | Some (Ok a, w') => k a w'
    end.

Notation "x <- m ;; k" := (bind m (fun x => k))
  (at level 61, m at next level, right associativity).
Notation "m ;; k" := (bind m (fun _ => k))
  (at level 61, right associativity).

Definition lift {A : Type} (r : result A) : M A := fun w => Some (r, w).

Definition out_of_fuel {A : Type} : M A := fun _ => None.

Definition request (c : call) : M unit :=
  fun w => Some (Ok tt, World (calls w ++ [c]) (stdout w)).

Definition print (line : string) : M unit :=
  fun w => Some (Ok tt, World (calls w) (stdout w ++ [line])).

(** [for x in l: s = f(s, x)] with effects. *)
Fixpoint for_each_M {A S : Type} (f : S -> A -> M S) (l : list A) (s : S)
  : M S :=
  match l with
  | [] => ret s
  | x :: r => s' <- f s x ;; for_each_M f r s'
  end.

(** ** The Spotify client *)

Record page (A : Type) : Type := Page {
  items : list A;
  next : option string      (* the url of the next page, or None *)
}.

Arguments Page {A} items next.

Module Playlist.
Record t : Type := Make {
  name : string;
  id : string;
  collaborative : bool
}.
End Playlist.

(** [d[k]] for a JSON object [d] and a key [k] whose value, when there is
    one, is null or of the type [A]. *)
Inductive field (A : Type) : Type :=
| Missing                 (* no such key: KeyError *)
| Null                    (* None *)
| Value (a : A).

Arguments Missing {A}.
Arguments Null {A}.
Arguments Value {A} a.

Module TrackObject.
(** The object [track['track']] of an entry; [id] is its key ['id']. *)
Record t : Type := Make { id : field string }.
End TrackObject.

Module Track.
(** An entry [track] of a playlist's items; [track] is its key ['track']. *)
Record t : Type := Make { track : field TrackObject.t }.
End Track.

(** The entry with a track object whose id is [i], None for null. *)
Definition reference (i : option string) : Track.t :=
  Track.Make
    (Value
       (TrackObject.Make
          match i with
          | Some s => Value s
          | None => Null
          end)).

(** The truth value of a string or None, as [while x], [filter(None, _)]
    test it: None and the empty string are false. *)
Definition truthy (x : option string) : option string :=
  match x with
  | None => None
  | Some EmptyString => None
  | Some s => Some s
  end.

Section Client.
Context {num : Type} {N : Number num}.

(** The service answers every request, and the same request the same way
    during a run. [sp.next] is one method of the client; it is split here by
    the type of the page it continues. *)
Record Spotify : Type := {
  current_user_playlists : page Playlist.t;
  playlist_items : string -> page Track.t;
  next_playlists : string -> page Playlist.t;
  next_tracks : string -> page Track.t;
  audio_features : list string -> list (@feature num)
}.

(** [while results['next']: results = sp.next(results);
     acc.extend(results['items'])] *)
Fixpoint while_next {A : Type} (sp_next : string -> page A) (fuel : nat)
  (results : page A) (acc : list A) : M (list A) :=
  match truthy (next results) with
  | None => ret acc
  | Some url =>
      match fuel with
      | O => out_of_fuel
      | S fuel' =>
          request (Next url) ;;
          let results' := sp_next url in
          while_next sp_next fuel' results' (acc ++ items results')
      end
  end.

(** Lines 19-23 of get_playlists. *)
Definition fetch_playlists (sp : Spotify) (fuel : nat)
  : M (list Playlist.t) :=
  request CurrentUserPlaylists ;;
  let results := current_user_playlists sp in
  while_next (next_playlists sp) fuel results (items results).

(** Lines 24-27 of get_playlists. *)
Definition resulting_playlists (collab_only : bool)
  (playlists : list Playlist.t) : dict string :=
  fold_left
    (fun resulting item =>
       if Playlist.collaborative item || negb collab_only
       then set (Playlist.name item) (Playlist.id item) resulting
       else resulting)
    playlists [].

Definition get_playlists (sp : Spotify) (collab_only : bool) (fuel : nat)
  : M (dict string) :=
  playlists <- fetch_playlists sp fuel ;;
  ret (resulting_playlists collab_only playlists).

Definition get_playlist_tracks (sp : Spotify) (playlist_id : string)
  (fuel : nat) : M (list Track.t) :=
  request (PlaylistItems playlist_id) ;;
  let results := playlist_items sp playlist_id in
  while_next (next_tracks sp) fuel results (items results).

(** [track['track']['id']]: None cannot be subscripted, and a missing key
    is a KeyError. *)
Definition track_id (track : Track.t) : result (option string) :=
  match Track.track track with
  | Missing => Raise (KeyError "track")
  | Null => Raise TypeError
  | Value object =>
      match TrackObject.id object with
      | Missing => Raise (KeyError "id")
      | Null => Ok None
      | Value i => Ok (Some i)
      end
  end.

(** [filter(None, ids)] *)
Definition filter_none (ids : list (option string)) : list string :=
  flat_map
    (fun i =>
       match truthy i with
       | Some i => [i]
       | None => []
       end)
    ids.

(** [list(filter(None, [track['track']['id'] for track in tracks]))]: the
    list of the ids is built first, up to the first exception. *)
Definition track_ids (tracks : list Track.t) : result (list string) :=
  match
    for_each
      (fun ids track =>
         match track_id track with
         | Ok i => Ok (ids ++ [i])
         | Raise e => Raise e
         end)
      tracks []
  with
  | Ok ids => Ok (filter_none ids)
  | Raise e => Raise e
  end.

(** [track_ids[start:start+100]] *)
Definition slice100 (track_ids : list string) (start : nat) : list string :=
  firstn 100 (skipn start track_ids).

(** The loop of get_audio_features. *)
Fixpoint while_tracks_left (sp : Spotify) (fuel : nat)
  (track_ids : list string) (num_tracks_left : Z) (start : nat)
  (acc : list feature) : M (list feature) :=
  if (0 <? num_tracks_left)%Z then
    match fuel with
    | O => out_of_fuel
    | S fuel' =>
        let ids := slice100 track_ids start in
        request (AudioFeatures ids) ;;
        while_tracks_left sp fuel' track_ids (num_tracks_left - 100)%Z
          (start + 100) (acc ++ audio_features sp ids)
    end
  else ret acc.

(** The loop ends after at most [len(track_ids)] rounds
    ([get_audio_features_requests]), which is the fuel it gets. *)
Definition get_audio_features (sp : Spotify) (tracks : list Track.t)
  : M (list feature) :=
  track_ids <- lift (track_ids tracks) ;;
  let num_tracks_left := Z.of_nat (List.length track_ids) in
  while_tracks_left sp (List.length track_ids) track_ids num_tracks_left 0 [].

End Client.

(** ** sorted *)

Section Sorted.
Variables (A K : Type) (ltK : K -> K -> bool).

(** Insertion of [x] before the first element that is not below it. *)
Fixpoint insert (x : K * A) (l : list (K * A)) : list (K * A) :=
  match l with
  | [] => [x]
  | y :: r => if ltK (fst y) (fst x) then y :: insert x r else x :: y :: r
  end.


(** A stable ascending sort that compares with [<] only, as list.sort. *)
Definition sort_stable (l : list (K * A)) : list (K * A) :=
  fold_right insert [] l.

(** [sorted(l, key=key, reverse=reverse)]: the keys are computed first, in
    order; a reverse sort reverses the list, sorts it and reverses the result,
    as CPython does to keep it stable. *)
Definition sorted (key : A -> result K) (reverse : bool) (l : list A)
  : result (list A) :=
  match
    for_each
      (fun keyed x =>
         match key x with
         | Ok k => Ok (keyed ++ [(k, x)])
         | Raise e => Raise e
         end)
      l []
  with
  | Raise e => Raise e
  | Ok keyed =>
      Ok (map snd
            (if reverse then rev (sort_stable (rev keyed))
             else sort_stable keyed))
  end.

End Sorted.

(** ** print_rankings and main *)

Definition nl : string := String (ascii_of_nat 10) EmptyString.

(** [l[:n]] *)
Definition slice_to {A : Type} (n : Z) (l : list A) : list A :=
  if (n <? 0)%Z then firstn (List.length l - Z.to_nat (- n)) l
  else firstn (Z.to_nat n) l.

(** [d[k]] *)
Definition getitem {V : Type} (d : dict V) (k : string) : result V :=
  match get k d with
  | Some v => Ok v
  | None => Raise (KeyError k)
  end.

Section Report.
Context {num : Type} {N : Number num}.

(** The list [sorted_playlists] of print_rankings for one category. *)
Definition sorted_playlists (playlists_audio_features : dict (dict num))
  (category : string) : result (list (string * dict num)) :=
  sorted lt (fun x => getitem (snd x) category) true playlists_audio_features.

(** The body of the loop of print_rankings. *)
Definition print_category (playlists_audio_features : dict (dict num))
  (top_amount : Z) (category : string) : M unit :=
  print ("-----------" ++ nl ++ category ++ nl ++ "-----------") ;;
  sorted_playlists <- lift (sorted_playlists playlists_audio_features category) ;;
  let top_ten := slice_to top_amount sorted_playlists in
  for_each_M
    (fun _ playlist =>
       value <- lift (getitem (snd playlist) category) ;;
       print (fst playlist ++ ": " ++ show value))
    top_ten tt ;;
  print "".

(** [audio_feature_names] is imported from the module [constants]; it is a
    parameter here. *)
Definition print_rankings (audio_feature_names : list string)
  (playlists_audio_features : dict (dict num)) (top_amount : Z) : M unit :=
  for_each_M
    (fun _ category =>
       print_category playlists_audio_features top_amount category)
    audio_feature_names tt.

(** Lines 133-134 of main, for one playlist. *)
Definition playlist_features (sp : @Spotify num) (fuel : nat)
  (playlists : dict string) (playlist : string) : M (list (@feature num)) :=
  playlist_id <- lift (getitem playlists playlist) ;;
  tracks <- get_playlist_tracks sp playlist_id fuel ;;
  get_audio_features sp tracks.

(** One round of the loop of main. *)
Definition average_playlist (sp : Spotify) (fuel : nat)
  (playlists : dict string) (playlist_audio_features : dict (dict num))
  (playlist : string) : M (dict (dict num)) :=
  audio_features <- playlist_features sp fuel playlists playlist ;;
  averages <- lift (average_audio_features audio_features) ;;
  ret (set playlist averages playlist_audio_features).

(** [main], from the authorised client on. *)
Definition main (audio_feature_names : list string) (sp : Spotify)
  (fuel : nat) : M unit :=
  playlists <- get_playlists sp false fuel ;;
  playlist_audio_features <-
    for_each_M (average_playlist sp fuel playlists) (keys playlists) [] ;;
  print_rankings audio_feature_names playlist_audio_features 10.

End Report.

(** Modelled from the spec: the list [audio_feature_names] of the module
    [constants], which is not among the sources; the nine descriptors of a
    feature vector, in the order the specification lists them. *)
Definition audio_feature_names : list string :=
  [ "danceability"; "energy"; "loudness"; "speechiness"; "acousticness";
    "instrumentalness"; "liveness"; "valence"; "tempo" ].

(** ** The rationals as numbers *)

Module Rational.

(** The integer nearest to [n / d] for [0 < d], halves to the even one. *)
Definition round_half_even (n d : Z) : Z :=
  let q := (n / d)%Z in
  match (2 * (n mod d) ?= d)%Z with
  | Lt => q
  | Gt => (q + 1)%Z
  | Eq => if Z.even q then q else (q + 1)%Z
  end.

Definition round2 (x : Q) : Q :=
  Qred (round_half_even (Qnum x * 100) (Zpos (Qden x)) # 100).

Definition digits (n : Z) : string :=
  NilZero.string_of_uint (N.to_uint (Z.to_N n)).

(** A number of hundredths as Python prints the float: 0.6, 0.65, 120.0. *)
Definition show_hundredths (c : Z) : string :=
  let a := Z.abs c in
  let frac := (a mod 100)%Z in
  ((if (c <? 0)%Z then "-" else "")
   ++ digits (a / 100) ++ "."
   ++ (if (frac mod 10 =? 0)%Z then digits (frac / 10)
       else digits (frac / 10) ++ digits (frac mod 10)))%string.

Definition show (x : Q) : string :=
  let y := Qred x in
  let d := Zpos (Qden y) in
  if (100 mod d =? 0)%Z then show_hundredths (Qnum y * (100 / d))
  else ((if (Qnum y <? 0)%Z then "-" else "")
        ++ digits (Z.abs (Qnum y)) ++ "/" ++ digits d)%string.

#[global] Instance number : Number Q := {
  zero := 0%Q;
  add x y := Some (Qred (x + y));
  div_count x n := Some (Qred (x / inject_Z (Z.of_nat n)));
  round2 := round2;
  lt x y := negb (Qle_bool y x);
  show := show
}.

End Rational.

(** ** Python's ints and floats *)

(** An int is exact and unbounded. A float is taken as the rational it
    stands for: the rounding of float arithmetic, infinities and NaN are not
    modelled. An int that meets a float is converted to a float, which raises
    OverflowError when it is too large; so does an int quotient. *)
Module Python.

Inductive number : Type :=
| Int (z : Z)
| Float (x : Q).

(** Beyond this bound an int rounds to no finite float. *)
Definition float_bound : Z := (2 ^ 1024 - 2 ^ 970)%Z.

Definition in_range (x : Q) : bool :=
  (Z.abs (Qnum x) <? float_bound * Zpos (Qden x))%Z.

(** [float(n)] *)
Definition to_float (n : number) : option Q :=
  match n with
  | Float x => Some x
  | Int z => if in_range (inject_Z z) then Some (inject_Z z) else None
  end.

Definition plus (a b : number) : option number :=
  match a, b with
  | Int x, Int y => Some (Int (x + y))
  | _, _ =>
      match to_float a, to_float b with
      | Some x, Some y => Some (Float (Qred (x + y)))
      | _, _ => None
      end
  end.

Definition divide (a : number) (n : nat) : option number :=
  match a with
  | Int z =>
      let q := Qred (inject_Z z / inject_Z (Z.of_nat n)) in
      if in_range q then Some (Float q) else None
  | Float x => Some (Float (Qred (x / inject_Z (Z.of_nat n))))
  end.

Definition round_hundredths (a : number) : number :=
  match a with
  | Int z => Int z
  | Float x => Float (Rational.round2 x)
  end.

Definition value (a : number) : Q :=
  match a with
  | Int z => inject_Z z
  | Float x => x
  end.

Definition render (a : number) : string :=
  match a with
  | Int z =>
      ((if (z <? 0)%Z then "-" else "") ++ Rational.digits (Z.abs z))%string
  | Float x => Rational.show x
  end.

(** The operations of the script on these numbers. They are not declared
    as an instance: they are named where they are meant. *)
Definition number_ops : Number number := {|
  zero := Int 0;
  add := plus;
  div_count := divide;
  round2 := round_hundredths;
  lt a b := negb (Qle_bool (value b) (value a));
  show := render
|}.

(** A vector whose nine descriptors all are [x]. *)
Definition constant (x : number) : @feature number :=
  Some
    (tabulate (fun _ => PyNum x)
       [ "danceability"; "energy"; "loudness"; "speechiness"; "acousticness";
         "instrumentalness"; "liveness"; "valence"; "tempo" ]).

(** A vector whose nine descriptors are the int [10 ** 400]. *)
Definition huge : @feature number := constant (Int (10 ^ 400)).

End Python.

(** ** The notions of the specification *)

Section Notions.
Context {num : Type} {N : Number num}.

(** The value of the descriptor [category] in a feature vector, when it is
    a number. *)
Definition numeric_value (category : string) (f : @feature num)
  : option num :=
  match f with
  | Some d =>
      match get category d with
      | Some (PyNum x) => Some x
      | _ => None
      end
  | None => None
  end.

(** The nine descriptors that average_audio_features accumulates. *)
Definition descriptors : list string := keys cumulative_audio_features.

(** A raw feature vector with a number for each of the nine descriptors. *)
Definition numeric_feature (f : @feature num) : Prop :=
  forall category,
    In category descriptors -> numeric_value category f <> None.

Definition value_of (category : string) (f : @feature num) : num :=
  match numeric_value category f with
  | Some x => x
  | None => zero
  end.

(** [acc + x] when the sum [acc] has not overflowed. *)
Definition add_to (acc : option num) (x : num) : option num :=
  match acc with
  | Some sum => add sum x
  | None => None
  end.

(** The sum of the numbers [xs] from [start], in their order; None when an
    addition overflows. *)
Definition sum_from (start : num) (xs : list num) : option num :=
  fold_left add_to xs (Some start).

(** The sum of a descriptor across the vectors, from 0, in their order. *)
Definition total (category : string) (fs : list (@feature num))
  : option num :=
  sum_from zero (map (value_of category) fs).

(** The mean of a descriptor, rounded to 2 decimals; None when the sum or
    the division overflows. *)
Definition rounded_mean (category : string) (fs : list (@feature num))
  : option num :=
  match total category fs with
  | Some sum => option_map round2 (div_count sum (List.length fs))
  | None => None
  end.

(** The sums of the categories [cs] across the vectors do not overflow. *)
Definition sums_defined (cs : list string) (fs : list (@feature num))
  : Prop :=
  forall category, In category cs -> total category fs <> None.

(** The nine fixed descriptors of a feature vector. *)
Definition nine_descriptors : list string :=
  [ "danceability"; "energy"; "loudness"; "speechiness"; "acousticness";
    "instrumentalness"; "liveness"; "valence"; "tempo" ].

(** A raw feature vector with a number for each of the nine. *)
Definition has_nine_numbers (f : @feature num) : Prop :=
  forall category,
    In category nine_descriptors -> numeric_value category f <> None.

Definition or_zero (o : option num) : num :=
  match o with
  | Some x => x
  | None => zero
  end.

Definition defined {A : Type} (o : option A) : bool :=
  match o with
  | Some _ => true
  | None => false
  end.

(** The sums of the categories [ks] after the vectors [fs], from the sums
    [g]; None when an addition overflows. *)
Fixpoint totals (ks : list string) (g : string -> num)
  (fs : list (@feature num)) : option (string -> num) :=
  match fs with
  | [] => Some g
  | f :: r =>
      if forallb (fun k => defined (add (g k) (value_of k f))) ks
      then totals ks (fun k => or_zero (add (g k) (value_of k f))) r
      else None
  end.


(** The value a playlist is ranked by, when its vector has the category. *)
Definition rank_value (category : string) (x : string * dict num) : result num :=
  getitem (snd x) category.


(** A playlist whose vector has the category. *)
Definition ranked (category : string) (x : string * dict num) : Prop :=
  exists k, rank_value category x = Ok k.

(** The value a playlist is ranked by, 0 when its vector lacks it. *)
Definition rank_number (category : string) (x : string * dict num) : num :=
  match rank_value category x with
  | Ok k => k
  | Raise _ => zero
  end.

(** The entries with the values they are sorted by. *)
Definition keyed (category : string) (l : list (string * dict num))
  : list (num * (string * dict num)) :=
  map (fun x => (rank_number category x, x)) l.


(** The heading and the line of a playlist in the block of a category. *)
Definition heading (category : string) : string :=
  "-----------" ++ nl ++ category ++ nl ++ "-----------".

Definition report_line (category : string) (x : string * dict num) : string :=
  fst x ++ ": " ++ show (rank_number category x).


End Notions.


(** A computation that prints nothing. *)
Definition silent {A : Type} (m : M A) : Prop :=
  forall w r w', m w = Some (r, w') -> stdout w' = stdout w.

(** Consecutive batches of at most [size] elements ([0 < size]); [fuel]
    bounds their number. *)
Fixpoint batches_upto {A : Type} (fuel size : nat) (l : list A)
  : list (list A) :=
  match fuel, l with
  | O, _ | _, [] => []
  | S fuel', _ => firstn size l :: batches_upto fuel' size (skipn size l)
  end.

Definition batches {A : Type} (size : nat) (l : list A) : list (list A) :=
  batches_upto (List.length l) size l.

(** [n / 100] rounded up. *)
Definition ceil_div100 (n : nat) : nat := (n + 99) / 100.

(** An entry that has a track object with an id, null or not. *)
Definition has_id (track : Track.t) : Prop :=
  exists i, track_id track = Ok i.

(** The ids, in order, of the track references whose id is not null. *)
Definition non_null_ids (tracks : list Track.t) : list string :=
  flat_map
    (fun track =>
       match Track.track track with
       | Value object =>
           match TrackObject.id object with
           | Value i => [i]
           | _ => []
           end
       | _ => []
       end)
    tracks.

(** The ids that are neither null nor the empty string. *)
Definition kept_ids (tracks : list Track.t) : list string :=
  filter (fun i => negb (String.eqb i "")) (non_null_ids tracks).

(** The pages a cursor leads through, from a first page to the page that
    names no next one. *)
Inductive page_chain {A : Type} (sp_next : string -> page A)
  : page A -> list (page A) -> Prop :=
| chain_last (p : page A) :
    truthy (next p) = None -> page_chain sp_next p [p]
| chain_more (p : page A) (url : string) (ps : list (page A)) :
    truthy (next p) = Some url ->
    page_chain sp_next (sp_next url) ps ->
    page_chain sp_next p (p :: ps).

(** The urls the pages of a list name as their next page. *)
Definition next_urls {A : Type} (ps : list (page A)) : list string :=
  flat_map
    (fun p =>
       match truthy (next p) with
       | Some url => [url]
       | None => []
       end)
    ps.

Definition all_items {A : Type} (ps : list (page A)) : list A :=
  List.concat (map (@items A) ps).

(** A playlist that get_playlists keeps. *)
Definition kept (collab_only : bool) (item : Playlist.t) : bool :=
  Playlist.collaborative item || negb collab_only.

Definition named (n : string) (item : Playlist.t) : bool :=
  String.eqb (Playlist.name item) n.

(** [resulting_playlists[item['name']] = item['id']] *)
Definition assign (resulting : dict string) (item : Playlist.t) : dict string :=
  set (Playlist.name item) (Playlist.id item) resulting.

(** The id of the last kept playlist called [n], in fetch order. *)
Definition last_id (collab_only : bool) (n : string)
  (playlists : list Playlist.t) : option string :=
  option_map Playlist.id
    (find (named n) (rev (filter (kept collab_only) playlists))).

(** ** A small account, to run the script on *)

Module Demo.

Definition vector (danceability energy tempo : Q) : @feature Q :=
  Some
    [ ("danceability", PyNum danceability);
      ("energy", PyNum energy);
      ("key", PyNum 5%Q);
      ("loudness", PyNum (-(523 # 100))%Q);
      ("speechiness", PyNum (4 # 100)%Q);
      ("acousticness", PyNum (1 # 10)%Q);
      ("instrumentalness", PyNum 0%Q);
      ("liveness", PyNum (12 # 100)%Q);
      ("valence", PyNum (1 # 2)%Q);
      ("tempo", PyNum tempo);
      ("type", PyStr "audio_features") ].

Definition features_of (track : string) : @feature Q :=
  if String.eqb track "t1" then vector (5 # 10) (9 # 10) 120
  else if String.eqb track "t2" then vector (7 # 10) (8 # 10) (2411 # 20)
  else if String.eqb track "t3" then vector (2 # 10) (95 # 100) 90
  else if String.eqb track "t4" then vector (4 # 10) (95 # 100) 100
  else None.

Definition mix_a : Playlist.t := Playlist.Make "Mix" "idA" true.
Definition solo : Playlist.t := Playlist.Make "Solo" "idB" false.
Definition mix_c : Playlist.t := Playlist.Make "Mix" "idC" true.
Definition empty : Playlist.t := Playlist.Make "Empty" "idE" true.

Definition playlists_p0 : page Playlist.t := Page [mix_a] (Some "me/playlists?offset=1").
Definition playlists_p1 : page Playlist.t := Page [solo] (Some "me/playlists?offset=2").
Definition playlists_p2 : page Playlist.t := Page [mix_c] None.

Definition tracks_c0 : page Track.t :=
  Page [reference (Some "t1"); reference None] (Some "idC/tracks?offset=2").
Definition tracks_c1 : page Track.t := Page [reference (Some "t2")] None.
Definition tracks_b : page Track.t :=
  Page [reference (Some "t3"); reference (Some "t4")] None.

(** Two playlists are called Mix; the playlists come in three pages, the
    tracks of idC in two. *)
Definition sp : @Spotify Q := {|
  current_user_playlists := playlists_p0;
  playlist_items i :=
    if String.eqb i "idC" then tracks_c0
    else if String.eqb i "idB" then tracks_b
    else Page [] None;
  next_playlists url :=
    if String.eqb url "me/playlists?offset=1" then playlists_p1
    else playlists_p2;
  next_tracks url := tracks_c1;
  audio_features ids := map features_of ids
|}.

(** The same service for an account whose first playlist has no track. *)
Definition sp_empty_first : @Spotify Q := {|
  current_user_playlists := Page [empty; solo] None;
  playlist_items := playlist_items sp;
  next_playlists := next_playlists sp;
  next_tracks := next_tracks sp;
  audio_features := audio_features sp
|}.

(** The account of the specification's example: A and C are collaborative,
    B is not. *)
Definition abc : list Playlist.t :=
  [ Playlist.Make "A" "idA" true;
    Playlist.Make "B" "idB" false;
    Playlist.Make "C" "idC" true ].

Definition sp_abc : @Spotify Q := {|
  current_user_playlists := Page abc None;
  playlist_items := playlist_items sp;
  next_playlists := next_playlists sp;
  next_tracks := next_tracks sp;
  audio_features := audio_features sp
|}.

(** 250 tracks with the ids 1, 2, ..., 250. *)
Definition tracks250 : list Track.t :=
  map
    (fun n => reference (Some (NilZero.string_of_uint (Nat.to_uint n))))
    (seq 1 250).

(** The averaged vectors of the specification's ranking example. *)
Definition energy_only (e : Q) : dict Q := [("energy", e)].

Definition xyz : dict (dict Q) :=
  [ ("X", energy_only (9 # 10));
    ("Y", energy_only (95 # 100));
    ("Z", energy_only (95 # 100)) ].

End Demo.

(** ** Further notions, for the behaviour beyond the specification *)

Section FurtherNotions.
Context {num : Type} {N : Number num}.

(** The exception that [cumulative[category] += audio_feature[category]]
    raises for a vector without a number for the category: a null vector
    cannot be subscripted, a missing key is a KeyError, any other value
    cannot be added to a number. *)
Definition offence (category : string) (audio_feature : @feature num) : exn :=
  match audio_feature with
  | None => TypeError
  | Some d =>
      match get category d with
      | None => KeyError category
      | Some _ => TypeError
      end
  end.

(** The list that print_rankings sorts for a category, empty when the
    sort raises. *)
Definition ranking (category : string)
  (playlists_audio_features : dict (dict num)) : list (string * dict num) :=
  match sorted_playlists playlists_audio_features category with
  | Ok sorted_playlists => sorted_playlists
  | Raise _ => []
  end.

(** The lines of the block of a category: heading, playlists, blank line. *)
Definition block (playlists_audio_features : dict (dict num))
  (top_amount : Z) (category : string) : list string :=
  heading category
  :: map (report_line category)
       (slice_to top_amount (ranking category playlists_audio_features))
  ++ [""].

(** A vector that average_audio_features returned for some list. *)
Definition averaged (x : string * dict num) : Prop :=
  exists audio_features, average_audio_features audio_features = Ok (snd x).

End FurtherNotions.

(** The names of a list without the repetitions of a name after its first
    occurrence. *)
Fixpoint first_occurrences (names : list string) : list string :=
  match names with
  | [] => []
  | n :: r =>
      n :: filter (fun m => negb (String.eqb m n)) (first_occurrences r)
  end.

(** The entry of a playlist in the mapping of get_playlists. *)
Definition entry (item : Playlist.t) : string * string :=
  (Playlist.name item, Playlist.id item).

(** A service whose pages of tracks never end: every page names the url
    of a page like itself. *)
Module DemoLoop.

Definition again : page Track.t :=
  Page [reference (Some "t1")] (Some "tracks?offset=0").

Definition sp : @Spotify Q := {|
  current_user_playlists := current_user_playlists Demo.sp;
  playlist_items i := again;
  next_playlists := next_playlists Demo.sp;
  next_tracks url := again;
  audio_features := audio_features Demo.sp
|}.

(** An account without playlists. *)
Definition empty_account : @Spotify Q := {|
  current_user_playlists := Page [] None;
  playlist_items := playlist_items Demo.sp;
  next_playlists := next_playlists Demo.sp;
  next_tracks := next_tracks Demo.sp;
  audio_features := audio_features Demo.sp
|}.

End DemoLoop.

(** The world after main has run on the small account. *)
Definition demo_final : world :=
  match main (@descriptors Q _) Demo.sp 2 empty_world with
  | Some (_, w) => w
  | None => empty_world
  end.

(** * Properties *)

(** ** Loops *)

Lemma for_each_app {A S : Type} (step : S -> A -> result S) (l1 l2 : list A) :
  forall s,
    for_each step (l1 ++ l2) s
    = match for_each step l1 s with
      | Ok s' => for_each step l2 s'
      | Raise e => Raise e
      end.
Proof.
  induction l1 as [|x l1 IH]; intros s; simpl; [reflexivity|].
  destruct (step s x); [apply IH | reflexivity].
Qed.

(** ** Dictionaries *)

Section DictFacts.
Context {V : Type}.
Implicit Types (d : dict V) (k : string) (v : V).

Lemma get_tabulate (g : string -> V) ks k :
  In k ks -> get k (tabulate g ks) = Some (g k).
Proof.
  induction ks as [|k' ks IH]; simpl; [tauto|].
  intros [-> | Hin].
  - now rewrite String.eqb_refl.
  - destruct (String.eqb_spec k' k) as [-> | _]; auto.
Qed.

Lemma keys_tabulate (g : string -> V) ks : keys (tabulate g ks) = ks.
Proof.
  unfold keys, tabulate. rewrite map_map. simpl. apply map_id.
Qed.

Lemma tabulate_ext (g h : string -> V) ks :
  (forall k, In k ks -> g k = h k) -> tabulate g ks = tabulate h ks.
Proof.
  intros E. apply map_ext_in. intros k Hk. now rewrite E.
Qed.

Lemma set_tabulate (g : string -> V) ks k v :
  NoDup ks -> In k ks ->
  set k v (tabulate g ks)
  = tabulate (fun k' => if String.eqb k' k then v else g k') ks.
Proof.
  induction 1 as [|k' ks Hk' Hnd IH]; simpl; [tauto|].
  destruct (String.eqb_spec k' k) as [-> | Hne].
  - intros _. f_equal. apply tabulate_ext. intros k'' Hin.
    destruct (String.eqb_spec k'' k) as [-> | _]; tauto.
  - intros [E | Hin]; [congruence|]. f_equal. auto.
Qed.

Lemma get_keys d k : get k d <> None <-> In k (keys d).
Proof.
  induction d as [|[k' v'] d IH]; simpl; [tauto|].
  destruct (String.eqb_spec k' k) as [-> | Hne].
  - split; [auto | discriminate].
  - rewrite IH. split; [auto | intros [E | H]; [congruence | exact H]].
Qed.

Lemma get_set_same d k v : get k (set k v d) = Some v.
Proof.
  induction d as [|[k' v'] d IH]; simpl.
  - now rewrite String.eqb_refl.
  - destruct (String.eqb_spec k' k) as [-> | Hne]; simpl.
    + now rewrite String.eqb_refl.
    + destruct (String.eqb_spec k' k); [contradiction | exact IH].
Qed.

Lemma get_set_other d k k' v : k' <> k -> get k' (set k v d) = get k' d.
Proof.
  intros Hne. induction d as [|[k0 v0] d IH]; simpl.
  - destruct (String.eqb_spec k k'); [congruence | reflexivity].
  - destruct (String.eqb_spec k0 k) as [-> | Hk]; simpl.
    + destruct (String.eqb_spec k k'); [congruence | reflexivity].
    + destruct (String.eqb_spec k0 k'); [reflexivity | exact IH].
Qed.

Lemma keys_set_present d k v : In k (keys d) -> keys (set k v d) = keys d.
Proof.
  induction d as [|[k' v'] d IH]; simpl; [tauto|].
  destruct (String.eqb_spec k' k) as [-> | Hne]; simpl; [reflexivity|].
  intros [E | Hin]; [congruence|]. f_equal. auto.
Qed.

Lemma set_fresh d k v : ~ In k (keys d) -> set k v d = d ++ [(k, v)].
Proof.
  induction d as [|[k' v'] d IH]; simpl; [reflexivity|].
  intros Hn. destruct (String.eqb_spec k' k) as [-> | Hne]; [tauto|].
  f_equal. apply IH. tauto.
Qed.

Lemma in_keys_set d k v k' :
  In k' (keys (set k v d)) <-> k' = k \/ In k' (keys d).
Proof.
  induction d as [|[k0 v0] d IH]; simpl.
  - intuition.
  - destruct (String.eqb_spec k0 k) as [-> | Hne]; simpl.
    + intuition.
    + rewrite IH. intuition.
Qed.

Lemma NoDup_keys_set d k v : NoDup (keys d) -> NoDup (keys (set k v d)).
Proof.
  induction d as [|[k0 v0] d IH]; simpl; intros Hnd.
  - constructor; [simpl; tauto | constructor].
  - inversion Hnd as [|? ? Hk0 Hnd']; subst.
    destruct (String.eqb_spec k0 k) as [-> | Hne]; simpl.
    + now constructor.
    + constructor; [|auto]. rewrite in_keys_set. intros [E | H]; auto.
Qed.

End DictFacts.

(** ** average_audio_features *)

Section AverageFacts.
Context {num : Type} {N : Number num}.
Implicit Types (f : @feature num) (fs : list (@feature num)).

Lemma NoDup_descriptors : NoDup (@descriptors num N).
Proof.
  unfold descriptors. simpl.
  repeat (constructor; [simpl; intuition discriminate|]). constructor.
Qed.

(** The accumulator has the nine descriptors, and no other. *)
Lemma descriptors_nine : @descriptors num N = nine_descriptors.
Proof. reflexivity. Qed.

Lemma cumulative_tabulate :
  @cumulative_audio_features num N = tabulate (fun _ => zero) descriptors.
Proof. reflexivity. Qed.

Lemma value_of_numeric category f x :
  numeric_value category f = Some x -> value_of category f = x.
Proof. unfold value_of. now intros ->. Qed.

Lemma forallb_agree {A : Type} (p q : A -> bool) (l : list A) :
  (forall x, In x l -> p x = q x) -> forallb p l = forallb q l.
Proof.
  induction l as [|x l IH]; intros H; simpl; [reflexivity|].
  rewrite H, IH; auto with datatypes.
Qed.

Lemma forallb_false_In {A : Type} (p : A -> bool) (l : list A) :
  forallb p l = false -> exists x, In x l /\ p x = false.
Proof.
  induction l as [|x l IH]; simpl; [discriminate|].
  destruct (p x) eqn:E; simpl.
  - intros H. destruct (IH H) as (y & Hy & Hp). eauto.
  - eauto.
Qed.

Lemma defined_Some {A : Type} (o : option A) :
  defined o = true -> exists a, o = Some a.
Proof. destruct o; [eauto | discriminate]. Qed.

(** One [+=] on a table of running sums. *)
Lemma accumulate_tabulate f (g : string -> num) ks category :
  NoDup ks -> In category ks -> numeric_value category f <> None ->
  accumulate f (tabulate g ks) category
  = match add (g category) (value_of category f) with
    | Some sum =>
        Ok (tabulate
              (fun k => if String.eqb k category then sum else g k) ks)
    | None => Raise OverflowError
    end.
Proof.
  intros Hnd Hin Hnum. unfold accumulate.
  rewrite (get_tabulate g ks category Hin).
  unfold value_of, numeric_value, subscript in *.
  destruct f as [d|]; [|congruence].
  destruct (get category d) as [[|x|s]|] eqn:E; try congruence.
  simpl. destruct (add (g category) x); [|reflexivity].
  now rewrite set_tabulate.
Qed.

(** The inner loop over some of the categories: it adds the vector to
    their sums, or overflows. *)
Lemma accumulate_some f ks cs :
  NoDup ks -> NoDup cs -> incl cs ks ->
  (forall c, In c cs -> numeric_value c f <> None) ->
  forall g : string -> num,
    for_each (accumulate f) cs (tabulate g ks)
    = if forallb (fun k => defined (add (g k) (value_of k f))) cs
      then
        Ok (tabulate
              (fun k =>
                 if existsb (String.eqb k) cs
                 then or_zero (add (g k) (value_of k f))
                 else g k)
              ks)
      else Raise OverflowError.
Proof.
  intros Hks. induction 1 as [|c cs Hc Hcs IH]; intros Hincl Hnum g.
  - reflexivity.
  - cbn [for_each forallb].
    rewrite accumulate_tabulate; auto with datatypes.
    destruct (add (g c) (value_of c f)) as [sum|] eqn:E; [|reflexivity].
    cbn [defined andb].
    rewrite IH; [|intros c' H'; auto with datatypes|auto with datatypes].
    rewrite (forallb_agree _ (fun k => defined (add (g k) (value_of k f)))).
    + destruct (forallb _ cs); [|reflexivity]. f_equal.
      apply tabulate_ext. intros k _. cbn [existsb].
      destruct (String.eqb_spec k c) as [-> | Hne]; simpl.
      * rewrite E. simpl.
        destruct (existsb (String.eqb c) cs) eqn:E'; [|reflexivity].
        apply existsb_exists in E' as (c' & Hin & Heq).
        apply String.eqb_eq in Heq. subst c'. contradiction.
      * reflexivity.
    + intros k Hk. destruct (String.eqb_spec k c) as [-> | _];
        [contradiction | reflexivity].
Qed.

(** The inner loop over all the categories. *)
Lemma accumulate_all f ks (g : string -> num) :
  NoDup ks -> (forall c, In c ks -> numeric_value c f <> None) ->
  for_each (accumulate f) (keys (tabulate g ks)) (tabulate g ks)
  = if forallb (fun k => defined (add (g k) (value_of k f))) ks
    then Ok (tabulate (fun k => or_zero (add (g k) (value_of k f))) ks)
    else Raise OverflowError.
Proof.
  intros Hnd Hnum. rewrite keys_tabulate.
  rewrite accumulate_some; auto using incl_refl.
  destruct (forallb _ ks); [|reflexivity].
  f_equal. apply tabulate_ext. intros k Hk.
  destruct (existsb (String.eqb k) ks) eqn:E; [reflexivity|].
  assert (existsb (String.eqb k) ks = true) as E'.
  { apply existsb_exists. exists k. split; [exact Hk | apply String.eqb_refl]. }
  congruence.
Qed.

(** The outer loop: the sums of all the vectors, or an overflow. *)
Lemma accumulate_features fs :
  Forall numeric_feature fs ->
  forall g : string -> num,
    for_each
      (fun cumulative audio_feature =>
         for_each (accumulate audio_feature) (keys cumulative) cumulative)
      fs (tabulate g descriptors)
    = match totals descriptors g fs with
      | Some sums => Ok (tabulate sums descriptors)
      | None => Raise OverflowError
      end.
Proof.
  induction 1 as [|f fs Hf Hfs IH]; intros g.
  - reflexivity.
  - cbn [for_each totals].
    rewrite accumulate_all by (auto using NoDup_descriptors).
    destruct (forallb _ descriptors); [apply IH | reflexivity].
Qed.

Lemma add_to_None (xs : list num) : fold_left add_to xs None = None.
Proof. induction xs; simpl; auto. Qed.

(** What [totals] computes for each category is its sum. *)
Lemma totals_Some ks fs :
  forall g sums : string -> num,
    totals ks g fs = Some sums ->
    forall k, In k ks -> sum_from (g k) (map (value_of k) fs) = Some (sums k).
Proof.
  induction fs as [|f fs IH]; intros g sums H k Hk; simpl in H.
  - now injection H as <-.
  - destruct (forallb _ ks) eqn:E; [|discriminate].
    rewrite forallb_forall in E. specialize (E k Hk).
    apply defined_Some in E as [sum E].
    unfold sum_from. simpl. rewrite E.
    rewrite <- (IH _ _ H k Hk). unfold sum_from. now rewrite E.
Qed.

Lemma totals_None ks fs :
  forall g : string -> num,
    totals ks g fs = None ->
    exists k, In k ks /\ sum_from (g k) (map (value_of k) fs) = None.
Proof.
  induction fs as [|f fs IH]; intros g H; simpl in H; [discriminate|].
  destruct (forallb _ ks) eqn:E.
  - destruct (IH _ H) as (k & Hk & Hsum). exists k. split; [exact Hk|].
    rewrite forallb_forall in E. specialize (E k Hk).
    apply defined_Some in E as [sum E].
    unfold sum_from in *. simpl. rewrite E. now rewrite E in Hsum.
  - apply forallb_false_In in E as (k & Hk & E). exists k. split; [exact Hk|].
    unfold sum_from. simpl.
    destruct (add (g k) (value_of k f)); [discriminate | apply add_to_None].
Qed.

(** The dict comprehension over a table without repeated keys: the rounded
    quotients, or an overflow. *)
Lemma averages_of_table (h : string -> num) n ks :
  forall averages : dict num,
    NoDup (keys averages ++ ks) ->
    for_each
      (fun averages item =>
         match py_div (snd item) (S n) with
         | Raise e => Raise e
         | Ok q => Ok (set (fst item) (round2 q) averages)
         end)
      (tabulate h ks) averages
    = if forallb (fun k => defined (div_count (h k) (S n))) ks
      then
        Ok (averages
            ++ tabulate
                 (fun k => round2 (or_zero (div_count (h k) (S n)))) ks)
      else Raise OverflowError.
Proof.
  induction ks as [|k ks IH]; intros averages Hnd.
  - simpl. now rewrite app_nil_r.
  - cbn [tabulate map for_each forallb py_div fst snd].
    destruct (div_count (h k) (S n)) as [q|]; [|reflexivity].
    cbn [defined andb or_zero]. rewrite set_fresh.
    + fold (tabulate h ks). rewrite IH.
      * destruct (forallb _ ks); [|reflexivity].
        rewrite <- app_assoc. reflexivity.
      * unfold keys. rewrite map_app. simpl. rewrite <- app_assoc. exact Hnd.
    + apply NoDup_remove_2 in Hnd. intros Hin. apply Hnd.
      apply in_or_app. now left.
Qed.

(** The two outcomes of average_audio_features on numeric vectors: the
    rounded means when all are defined, OverflowError when one is not. *)
Lemma average_outcome f fs :
  Forall numeric_feature (f :: fs) ->
  ((forall c, In c descriptors -> rounded_mean c (f :: fs) <> None)
   /\ average_audio_features (f :: fs)
      = Ok (tabulate (fun k => or_zero (rounded_mean k (f :: fs)))
              descriptors))
  \/ ((exists c, In c descriptors /\ rounded_mean c (f :: fs) = None)
      /\ average_audio_features (f :: fs) = Raise OverflowError).
Proof.
  intros Hnum. unfold average_audio_features.
  rewrite cumulative_tabulate, accumulate_features by assumption.
  cbv zeta. change (List.length (f :: fs)) with (S (List.length fs)).
  destruct (totals descriptors (fun _ => zero) (f :: fs)) as [sums|] eqn:E.
  - pose proof (totals_Some _ _ _ E) as Hsums.
    rewrite averages_of_table by (simpl keys; apply NoDup_descriptors).
    assert (forall k, In k descriptors ->
              rounded_mean k (f :: fs)
              = option_map round2 (div_count (sums k) (S (List.length fs))))
      as Hmean.
    { intros k Hk. unfold rounded_mean, total. now rewrite (Hsums k Hk). }
    destruct (forallb _ descriptors) eqn:Ediv.
    + left. rewrite forallb_forall in Ediv. split.
      * intros c Hc. rewrite (Hmean c Hc).
        destruct (defined_Some _ (Ediv c Hc)) as [q ->]. discriminate.
      * f_equal. apply tabulate_ext. intros k Hk. rewrite (Hmean k Hk).
        now destruct (defined_Some _ (Ediv k Hk)) as [q ->].
    + right. apply forallb_false_In in Ediv as (c & Hc & Ediv).
      split; [|reflexivity]. exists c. split; [exact Hc|].
      rewrite (Hmean c Hc).
      now destruct (div_count (sums c) (S (List.length fs))).
  - right. split; [|reflexivity].
    destruct (totals_None _ _ _ E) as (c & Hc & Hsum).
    exists c. split; [exact Hc|]. unfold rounded_mean, total. now rewrite Hsum.
Qed.

(** The keys of the running sums never change. *)
Lemma accumulate_keys f (cumulative cumulative' : dict num) category :
  accumulate f cumulative category = Ok cumulative' ->
  keys cumulative' = keys cumulative.
Proof.
  unfold accumulate. destruct (get category cumulative) eqn:E; [|discriminate].
  destruct (subscript f category); [|discriminate].
  destruct (py_add n a); [|discriminate].
  intros [= <-]. apply keys_set_present. apply get_keys. congruence.
Qed.

Lemma for_each_keys {A : Type} (step : dict num -> A -> result (dict num)) :
  (forall d x d', step d x = Ok d' -> keys d' = keys d) ->
  forall l d d', for_each step l d = Ok d' -> keys d' = keys d.
Proof.
  intros Hstep. induction l as [|x l IH]; simpl; intros d d'.
  - now intros [= ->].
  - destruct (step d x) as [d1|] eqn:E; [|discriminate].
    intros H. rewrite (IH _ _ H). eauto.
Qed.

Lemma cumulative_keys fs (cumulative : dict num) :
  for_each
    (fun cumulative audio_feature =>
       for_each (accumulate audio_feature) (keys cumulative) cumulative)
    fs cumulative_audio_features
  = Ok cumulative ->
  keys cumulative = descriptors.
Proof.
  intros H. apply for_each_keys in H; [exact H|].
  intros d f d' Hd. apply for_each_keys in Hd; [exact Hd|].
  intros d0 c d1. apply accumulate_keys.
Qed.

(** The comprehension, when it succeeds, keeps the keys of the sums. *)
Lemma comprehension_keys n (cumulative : dict num) :
  forall averages averages' : dict num,
    NoDup (keys averages ++ keys cumulative) ->
    for_each
      (fun averages item =>
         match py_div (snd item) n with
         | Raise e => Raise e
         | Ok q => Ok (set (fst item) (round2 q) averages)
         end)
      cumulative averages
    = Ok averages' ->
    keys averages' = keys averages ++ keys cumulative.
Proof.
  induction cumulative as [|[k v] r IH]; simpl; intros averages averages' Hnd.
  - intros [= <-]. now rewrite app_nil_r.
  - destruct (py_div v n) as [q|]; [|discriminate].
    intros H. apply IH in H.
    + rewrite H. rewrite set_fresh.
      * unfold keys. rewrite map_app. simpl. now rewrite <- app_assoc.
      * apply NoDup_remove_2 in Hnd. intros Hin. apply Hnd.
        apply in_or_app. now left.
    + rewrite set_fresh.
      * unfold keys. rewrite map_app. simpl. rewrite <- app_assoc. exact Hnd.
      * apply NoDup_remove_2 in Hnd. intros Hin. apply Hnd.
        apply in_or_app. now left.
Qed.

Lemma average_keys fs (averages : dict num) :
  average_audio_features fs = Ok averages -> keys averages = descriptors.
Proof.
  unfold average_audio_features.
  destruct (for_each _ fs cumulative_audio_features) as [cumulative|] eqn:E;
    [|discriminate].
  apply cumulative_keys in E. intros H.
  apply comprehension_keys in H.
  - simpl in H. congruence.
  - simpl. rewrite E. apply NoDup_descriptors.
Qed.

End AverageFacts.

(** C1 (as amended). For every non-empty list of raw feature vectors that
    have a number for each of the nine descriptors, and for which no sum of a
    descriptor and no division by the count overflows,
    average_audio_features returns a mapping with exactly the nine
    descriptors, in which the value of each is the sum of that descriptor
    across the vectors (from 0, in list order) divided by their count and
    rounded to 2 decimals. *)
Theorem average_audio_features_mean {num : Type} {N : Number num}
  (audio_features : list (@feature num)) :
  audio_features <> [] ->
  Forall has_nine_numbers audio_features ->
  (forall category,
     In category nine_descriptors ->
     rounded_mean category audio_features <> None) ->
  exists averages,
    average_audio_features audio_features = Ok averages
    /\ keys averages = nine_descriptors
    /\ forall category,
         In category nine_descriptors ->
         get category averages = rounded_mean category audio_features.
Proof.
  intros Hne Hnum Hdefined.
  destruct audio_features as [|f fs]; [congruence|].
  destruct (average_outcome Hnum) as [[_ Hok] | [(c & Hc & Hnone) _]].
  - eexists. split; [exact Hok|]. split.
    + rewrite keys_tabulate. apply descriptors_nine.
    + intros category Hin.
      rewrite (@get_tabulate _ (fun k => or_zero (rounded_mean k (f :: fs)))
                 _ _ Hin).
      specialize (Hdefined category Hin).
      now destruct (rounded_mean category (f :: fs)).
  - now destruct (Hdefined c Hc).
Qed.

(** C2 (as amended). On the empty list average_audio_features divides by
    the count 0: it raises ZeroDivisionError, whatever the numbers are. *)
Theorem average_audio_features_empty {num : Type} {N : Number num} :
  average_audio_features (@nil (@feature num)) = Raise ZeroDivisionError.
Proof. reflexivity. Qed.

(** ** Pagination *)

Section Pagination.
Context {A : Type} (sp_next : string -> page A).

Lemma world_eta (w : world) : World (calls w) (stdout w) = w.
Proof. now destruct w. Qed.

Lemma chain_head p ps :
  page_chain sp_next p ps -> exists r, ps = p :: r.
Proof. destruct 1; eauto. Qed.

Lemma chain_functional p ps :
  page_chain sp_next p ps ->
  forall ps', page_chain sp_next p ps' -> ps = ps'.
Proof.
  induction 1 as [p Hp | p url ps Hp Hch IH]; intros ps' H';
    inversion H'; subst; try congruence.
  f_equal. apply IH. congruence.
Qed.

Lemma next_urls_length p ps :
  page_chain sp_next p ps -> List.length (next_urls ps) = List.length ps - 1.
Proof.
  induction 1 as [p Hp | p url ps Hp Hch IH]; unfold next_urls in *; simpl.
  - now rewrite Hp.
  - rewrite Hp. simpl. rewrite IH.
    destruct (chain_head Hch) as [r ->]. simpl. lia.
Qed.

(** A url named in a chain starts a strictly shorter chain. *)
Lemma chain_after p ps url :
  page_chain sp_next p ps -> In url (next_urls ps) ->
  exists ps', page_chain sp_next (sp_next url) ps'
              /\ List.length ps' < List.length ps.
Proof.
  induction 1 as [p Hp | p u ps Hp Hch IH]; unfold next_urls in *; simpl.
  - rewrite Hp. simpl. tauto.
  - rewrite Hp. simpl. intros [-> | Hin].
    + exists ps. split; [exact Hch | lia].
    + destruct (IH Hin) as (ps' & Hch' & Hlen).
      exists ps'. split; [exact Hch' | lia].
Qed.

(** No url is named twice: no page is asked for twice. *)
Lemma next_urls_NoDup p ps :
  page_chain sp_next p ps -> NoDup (next_urls ps).
Proof.
  induction 1 as [p Hp | p url ps Hp Hch IH].
  - unfold next_urls. simpl. rewrite Hp. constructor.
  - change (next_urls (p :: ps))
      with (match truthy (next p) with Some u => [u] | None => [] end
            ++ next_urls ps).
    rewrite Hp. simpl. constructor; [|exact IH].
    intros Hin. destruct (chain_after url Hch Hin) as (ps' & Hch' & Hlen).
    rewrite (chain_functional Hch Hch') in Hlen. lia.
Qed.

(** The loop follows the chain: one request per page that names a next one. *)
Lemma while_next_chain p ps :
  page_chain sp_next p ps ->
  forall fuel acc w,
    List.length ps <= S fuel ->
    while_next sp_next fuel p acc w
    = Some (Ok (acc ++ all_items (tl ps)),
            World (calls w ++ map Next (next_urls ps)) (stdout w)).
Proof.
  induction 1 as [p Hp | p url ps Hp Hch IH]; intros fuel acc w Hfuel.
  - unfold next_urls. simpl. rewrite Hp. simpl.
    rewrite !app_nil_r, world_eta.
    destruct fuel; simpl; now rewrite Hp.
  - destruct (chain_head Hch) as [r ->].
    destruct fuel as [|fuel]; [simpl in Hfuel; lia|].
    simpl while_next. rewrite Hp. unfold bind, request.
    rewrite IH by (simpl in *; lia).
    change (next_urls (p :: sp_next url :: r))
      with (match truthy (next p) with Some u => [u] | None => [] end
            ++ next_urls (sp_next url :: r)).
    rewrite Hp. simpl. unfold all_items. simpl.
    now rewrite <- !app_assoc.
Qed.

End Pagination.

(** ** get_playlists *)

Section PlaylistFacts.

Lemma resulting_filter collab_only playlists :
  forall d,
    fold_left
      (fun resulting item =>
         if Playlist.collaborative item || negb collab_only
         then set (Playlist.name item) (Playlist.id item) resulting
         else resulting)
      playlists d
    = fold_left assign (filter (kept collab_only) playlists) d.
Proof.
  induction playlists as [|item l IH]; intros d; simpl; [reflexivity|].
  unfold kept at 1.
  destruct (Playlist.collaborative item || negb collab_only); simpl; apply IH.
Qed.

Lemma get_assigned n l :
  forall d,
    get n (fold_left assign l d)
    = match find (named n) (rev l) with
      | Some item => Some (Playlist.id item)
      | None => get n d
      end.
Proof.
  induction l as [|item l IH] using rev_ind; intros d; [reflexivity|].
  rewrite fold_left_app, rev_app_distr. simpl. unfold named at 1, assign at 1.
  destruct (String.eqb_spec (Playlist.name item) n) as [<- | Hne].
  - apply get_set_same.
  - rewrite get_set_other by congruence. apply IH.
Qed.

Lemma keys_assigned n l :
  forall d,
    In n (keys (fold_left assign l d))
    <-> In n (keys d) \/ exists item, In item l /\ Playlist.name item = n.
Proof.
  induction l as [|item l IH]; intros d; simpl.
  - split; [auto | intros [H | (item & [] & _)]; exact H].
  - rewrite IH. unfold assign at 1. rewrite in_keys_set. split.
    + intros [[-> | H] | (it & Hin & E)]; eauto 6.
    + intros [H | (it & [<- | Hin] & E)]; eauto 6.
Qed.

Lemma NoDup_assigned l :
  forall d, NoDup (keys d) -> NoDup (keys (fold_left assign l d)).
Proof.
  induction l as [|item l IH]; intros d Hd; simpl; [exact Hd|].
  apply IH. now apply NoDup_keys_set.
Qed.

(** The name maps to the id of the last kept playlist of that name. *)
Lemma get_resulting_playlists collab_only n playlists :
  get n (resulting_playlists collab_only playlists)
  = last_id collab_only n playlists.
Proof.
  unfold resulting_playlists, last_id. rewrite resulting_filter, get_assigned.
  now destruct (find _ _).
Qed.

Lemma find_named_In n l item :
  find (named n) l = Some item -> In item l /\ Playlist.name item = n.
Proof.
  intros H. apply find_some in H as [Hin Hn]. split; [exact Hin|].
  now apply String.eqb_eq.
Qed.

End PlaylistFacts.

(** ** Batches *)

Section Batches.
Context {A : Type}.
Implicit Types (l : list A) (size fuel : nat).

Lemma batches_upto_nil fuel size : batches_upto fuel size (@nil A) = [].
Proof. now destruct fuel. Qed.

Lemma batches_upto_cons fuel size l :
  l <> [] ->
  batches_upto (S fuel) size l
  = firstn size l :: batches_upto fuel size (skipn size l).
Proof. destruct l; [congruence | reflexivity]. Qed.

Lemma skipn_shorter size l :
  l <> [] -> List.length (skipn (S size) l) < List.length l.
Proof.
  intros Hl. rewrite length_skipn. destruct l; [congruence | simpl; lia].
Qed.

Lemma batches_upto_enough size l :
  forall fuel fuel',
    List.length l <= fuel -> List.length l <= fuel' ->
    batches_upto fuel (S size) l = batches_upto fuel' (S size) l.
Proof.
  induction l as [l IH] using (induction_ltof1 _ (@List.length A)).
  unfold ltof in IH. intros fuel fuel' H H'.
  destruct l as [|a l]; [now rewrite !batches_upto_nil|].
  destruct fuel as [|fuel]; [simpl in H; lia|].
  destruct fuel' as [|fuel']; [simpl in H'; lia|].
  rewrite !batches_upto_cons by discriminate. f_equal.
  pose proof (@skipn_shorter size (a :: l)) as Hs.
  apply IH; [apply Hs; discriminate | |]; specialize (Hs ltac:(discriminate));
    simpl in *; lia.
Qed.

Lemma batches_enough size l fuel :
  List.length l <= fuel -> batches_upto fuel (S size) l = batches (S size) l.
Proof. intros H. unfold batches. now apply batches_upto_enough. Qed.

Lemma batches_cons size l :
  l <> [] ->
  batches (S size) l
  = firstn (S size) l :: batches (S size) (skipn (S size) l).
Proof.
  intros Hl. unfold batches at 1.
  destruct (List.length l) as [|n] eqn:E; [destruct l; [congruence|discriminate]|].
  rewrite batches_upto_cons by assumption. f_equal.
  apply batches_enough. pose proof (skipn_shorter size Hl). lia.
Qed.

Lemma batches_nil size : batches size (@nil A) = [].
Proof. reflexivity. Qed.

(** An induction principle that follows the batches. *)
Lemma batches_ind size (P : list A -> Prop) :
  P [] ->
  (forall l, l <> [] -> P (skipn (S size) l) -> P l) ->
  forall l, P l.
Proof.
  intros Hnil Hstep.
  induction l as [l IH] using (induction_ltof1 _ (@List.length A)).
  unfold ltof in IH. destruct l as [|a l]; [exact Hnil|].
  apply Hstep; [discriminate|]. apply IH. apply skipn_shorter. discriminate.
Qed.

(** The batches are consecutive: together they are the list. *)
Lemma concat_batches size l : List.concat (batches (S size) l) = l.
Proof.
  induction l as [|l Hl IH] using (batches_ind size); [reflexivity|].
  rewrite batches_cons by assumption. rewrite concat_cons, IH.
  apply firstn_skipn.
Qed.

(** No batch is empty or longer than the size. *)
Lemma batches_sizes size l :
  Forall (fun b => 1 <= List.length b <= S size) (batches (S size) l).
Proof.
  induction l as [|l Hl IH] using (batches_ind size); [constructor|].
  rewrite batches_cons by assumption. constructor; [|exact IH].
  rewrite length_firstn. destruct l; [congruence | cbn [List.length]; lia].
Qed.

(** Every batch but the last one is full. *)
Lemma batches_full size l i :
  S i < List.length (batches (S size) l) ->
  List.length (nth i (batches (S size) l) []) = S size.
Proof.
  revert i. induction l as [|l Hl IH] using (batches_ind size); intros i.
  - rewrite batches_nil. simpl. lia.
  - rewrite batches_cons by assumption. cbn [List.length]. intros Hi.
    destruct i as [|i]; [|cbn [nth]; apply IH; lia].
    cbn [nth]. rewrite length_firstn.
    destruct (skipn (S size) l) as [|b r] eqn:E;
      [rewrite batches_nil in Hi; simpl in Hi; lia|].
    assert (List.length (skipn (S size) l) <> 0) as Hlen by now rewrite E.
    rewrite length_skipn in Hlen. lia.
Qed.

End Batches.

Lemma ceil_div100_step n :
  0 < n -> ceil_div100 n = S (ceil_div100 (n - 100)).
Proof.
  intros Hn. unfold ceil_div100.
  destruct (Nat.le_gt_cases n 100) as [Hle | Hgt].
  - replace (n - 100) with 0 by lia.
    change ((0 + 99) / 100) with 0.
    symmetry. apply Nat.div_unique with (r := n - 1); lia.
  - replace (n + 99) with ((n - 100 + 99) + 1 * 100) by lia.
    rewrite Nat.div_add by discriminate. lia.
Qed.

(** There are [ceil(n / 100)] batches of at most 100 among [n] elements. *)
Lemma batches_count {A : Type} (l : list A) :
  List.length (batches 100 l) = ceil_div100 (List.length l).
Proof.
  induction l as [|l Hl IH] using (batches_ind 99); [reflexivity|].
  rewrite batches_cons by assumption. cbn [List.length]. rewrite IH.
  rewrite length_skipn. symmetry. apply ceil_div100_step.
  destruct l; [congruence | simpl; lia].
Qed.

(** ** get_audio_features *)

Section FeatureFacts.
Context {num : Type} {N : Number num} (sp : @Spotify num).

(** The loop at [start], with the count of the ids from [start] on left. *)
Lemma while_tracks_left_batches (ids : list string) :
  forall fuel start acc w,
    List.length (skipn start ids) <= fuel ->
    while_tracks_left sp fuel ids
      (Z.of_nat (List.length ids) - Z.of_nat start)%Z start acc w
    = Some
        (Ok (acc
             ++ List.concat
                  (map (audio_features sp) (batches 100 (skipn start ids)))),
         World
           (calls w ++ map AudioFeatures (batches 100 (skipn start ids)))
           (stdout w)).
Proof.
  induction fuel as [|fuel IH]; intros start acc w Hfuel;
    rewrite length_skipn in Hfuel.
  - assert (skipn start ids = []) as -> by (apply skipn_all2; lia).
    cbn [while_tracks_left].
    replace (0 <? _)%Z with false by (symmetry; apply Z.ltb_ge; lia).
    simpl. now rewrite !app_nil_r, world_eta.
  - cbn [while_tracks_left].
    destruct (0 <? Z.of_nat (List.length ids) - Z.of_nat start)%Z eqn:E.
    + apply Z.ltb_lt in E.
      assert (skipn start ids <> []) as Hne.
      { intros H. apply (f_equal (@List.length string)) in H.
        rewrite length_skipn in H. simpl in H. lia. }
      unfold bind, request.
      replace (Z.of_nat (List.length ids) - Z.of_nat start - 100)%Z
        with (Z.of_nat (List.length ids) - Z.of_nat (start + 100))%Z by lia.
      rewrite IH by (rewrite length_skipn; lia).
      rewrite (batches_cons 99 Hne).
      replace (skipn (start + 100) ids) with (skipn 100 (skipn start ids))
        by (rewrite skipn_skipn; f_equal; lia).
      unfold slice100. cbn [map List.concat calls stdout].
      now rewrite <- !app_assoc.
    + apply Z.ltb_ge in E.
      assert (skipn start ids = []) as -> by (apply skipn_all2; lia).
      simpl. now rewrite !app_nil_r, world_eta.
Qed.

(** With the ids of the tracks, get_audio_features never runs out of fuel:
    it asks for the batches of the ids, in order, and returns what it gets
    for them. *)
Lemma get_audio_features_requests (tracks : list Track.t) (ids : list string)
  (w : world) :
  track_ids tracks = Ok ids ->
  get_audio_features sp tracks w
  = Some
      (Ok (List.concat (map (audio_features sp) (batches 100 ids))),
       World (calls w ++ map AudioFeatures (batches 100 ids)) (stdout w)).
Proof.
  intros Hids. unfold get_audio_features, bind, lift. rewrite Hids.
  pose proof (@while_tracks_left_batches ids (List.length ids) 0 [] w) as H.
  rewrite Z.sub_0_r in H. apply H. simpl. lia.
Qed.

(** An exception of the list of the ids ends get_audio_features. *)
Lemma get_audio_features_raises (tracks : list Track.t) (e : exn) (w : world) :
  track_ids tracks = Raise e ->
  get_audio_features sp tracks w = Some (Raise e, w).
Proof.
  intros Hids. unfold get_audio_features, bind, lift. now rewrite Hids.
Qed.

End FeatureFacts.

Lemma filter_none_app (l1 l2 : list (option string)) :
  filter_none (l1 ++ l2) = filter_none l1 ++ filter_none l2.
Proof. apply flat_map_app. Qed.

(** The ids collected from entries that all have a track object with an
    id, and what is kept of them. *)
Lemma ids_collected (tracks : list Track.t) :
  Forall has_id tracks ->
  forall acc,
    exists ids,
      for_each
        (fun ids track =>
           match track_id track with
           | Ok i => Ok (ids ++ [i])
           | Raise e => Raise e
           end)
        tracks acc
      = Ok (acc ++ ids)
      /\ filter_none ids = kept_ids tracks.
Proof.
  induction 1 as [|track tracks [i Hi] Hall IH]; intros acc.
  - exists []. split; [simpl; now rewrite app_nil_r | reflexivity].
  - destruct (IH (acc ++ [i])) as (ids & Hloop & Hkept).
    exists (i :: ids). split.
    + cbn [for_each]. rewrite Hi, Hloop, <- app_assoc. reflexivity.
    + change (i :: ids) with ([i] ++ ids). rewrite filter_none_app, Hkept.
      unfold kept_ids, non_null_ids, track_id in *. cbn [flat_map].
      rewrite filter_app. f_equal.
      destruct (Track.track track) as [| |object]; try discriminate.
      destruct (TrackObject.id object) as [| |j]; try discriminate;
        injection Hi as <-; [reflexivity|].
      now destruct j.
Qed.

Lemma track_ids_kept (tracks : list Track.t) :
  Forall has_id tracks -> track_ids tracks = Ok (kept_ids tracks).
Proof.
  intros H. unfold track_ids.
  destruct (ids_collected H []) as (ids & -> & <-). reflexivity.
Qed.

(** The first entry without a track object or without an id raises. *)
Lemma track_ids_raise (before after : list Track.t) (track : Track.t)
  (e : exn) :
  Forall has_id before -> track_id track = Raise e ->
  track_ids (before ++ track :: after) = Raise e.
Proof.
  intros Hbefore He. unfold track_ids. rewrite for_each_app.
  destruct (ids_collected Hbefore []) as (ids & -> & _).
  cbn [for_each]. now rewrite He.
Qed.

Lemma null_ids_kept (tracks : list Track.t) :
  Forall
    (fun track =>
       exists object,
         Track.track track = Value object /\ TrackObject.id object = Null)
    tracks ->
  Forall has_id tracks /\ kept_ids tracks = [].
Proof.
  induction 1 as [|track tracks (object & Ht & Hi) Hall [IH1 IH2]].
  - split; [constructor | reflexivity].
  - split.
    + constructor; [|exact IH1]. exists None. unfold track_id.
      now rewrite Ht, Hi.
    + unfold kept_ids, non_null_ids in *. cbn [flat_map].
      now rewrite Ht, Hi.
Qed.


Lemma find_in_app {A : Type} (p : A -> bool) (l1 l2 : list A) :
  find p (l1 ++ l2)
  = match find p l1 with
    | Some x => Some x
    | None => find p l2
    end.
Proof.
  induction l1 as [|a l1 IH]; simpl; [reflexivity|].
  now destruct (p a).
Qed.

(** C4. When the pages of the user's playlists have been fetched,
    get_playlists returns a mapping without repeated names whose names are
    exactly the names of the fetched playlists that are collaborative (or of
    all of them, when [collab_only] is false), each bound to the id of such a
    playlist. *)
Theorem get_playlists_filters {num : Type} {N : Number num}
  (sp : @Spotify num) (collab_only : bool) (fuel : nat) (w w' : world)
  (playlists : list Playlist.t) :
  fetch_playlists sp fuel w = Some (Ok playlists, w') ->
  exists resulting,
    get_playlists sp collab_only fuel w = Some (Ok resulting, w')
    /\ NoDup (keys resulting)
    /\ (forall n,
          In n (keys resulting)
          <-> exists item,
                In item playlists /\ Playlist.name item = n
                /\ (collab_only = true -> Playlist.collaborative item = true))
    /\ (forall n i,
          get n resulting = Some i ->
          exists item,
            In item playlists /\ Playlist.name item = n
            /\ Playlist.id item = i
            /\ (collab_only = true -> Playlist.collaborative item = true)).
Proof.
  intros Hfetch. exists (resulting_playlists collab_only playlists).
  assert (forall item,
            In item (filter (kept collab_only) playlists)
            <-> In item playlists
                /\ (collab_only = true -> Playlist.collaborative item = true))
    as Hkept.
  { intros item. rewrite filter_In. unfold kept.
    destruct collab_only, (Playlist.collaborative item); simpl; intuition. }
  split; [|split; [|split]].
  - unfold get_playlists, bind. now rewrite Hfetch.
  - unfold resulting_playlists. rewrite resulting_filter.
    apply NoDup_assigned. constructor.
  - intros n. unfold resulting_playlists.
    rewrite resulting_filter, keys_assigned. simpl. split.
    + intros [[] | (item & Hin & E)]. exists item. apply Hkept in Hin. tauto.
    + intros (item & Hin & E & Hc). right. exists item.
      split; [apply Hkept; tauto | exact E].
  - intros n i. rewrite get_resulting_playlists. unfold last_id.
    destruct (find _ _) as [item|] eqn:E; [|discriminate].
    intros [= <-]. apply find_named_In in E as [Hin Hn].
    apply in_rev, Hkept in Hin. exists item. tauto.
Qed.

(** C5. When the fetched playlists contain a playlist that get_playlists
    keeps and no later kept playlist has its name, the mapping returned binds
    that name to the id of this playlist: of several kept playlists with one
    name, the last in fetch order wins. *)
Theorem get_playlists_last_wins {num : Type} {N : Number num}
  (sp : @Spotify num) (collab_only : bool) (fuel : nat) (w w' : world)
  (before after : list Playlist.t) (item : Playlist.t) :
  fetch_playlists sp fuel w = Some (Ok (before ++ item :: after), w') ->
  kept collab_only item = true ->
  (forall later,
     In later after -> kept collab_only later = true ->
     Playlist.name later <> Playlist.name item) ->
  exists resulting,
    get_playlists sp collab_only fuel w = Some (Ok resulting, w')
    /\ get (Playlist.name item) resulting = Some (Playlist.id item).
Proof.
  intros Hfetch Hkept Hlater. eexists. split.
  - unfold get_playlists, bind. rewrite Hfetch. reflexivity.
  - rewrite get_resulting_playlists. unfold last_id.
    rewrite filter_app. simpl. rewrite Hkept.
    rewrite rev_app_distr. simpl. rewrite <- app_assoc.
    rewrite find_in_app.
    destruct (find _ (rev (filter (kept collab_only) after))) as [later|] eqn:E.
    + apply find_named_In in E as [Hin Hn].
      apply in_rev, filter_In in Hin as [Hin Hk].
      now destruct (Hlater later Hin Hk).
    + simpl. unfold named at 1. now rewrite String.eqb_refl.
Qed.

(** C6 (as amended). For a list of entries that all have a track object
    with an id, get_audio_features keeps the ids that are neither null nor
    the empty string, in order; it sends one request for each of the
    consecutive batches of these ids, of 100 ids each but for a shorter last
    one, so [ceil(n / 100)] requests for [n] ids; and it returns what the
    requests return, batch after batch. At the first entry whose track is
    null (TypeError), or that lacks the track or the id (KeyError), it raises
    without sending a request. *)
Theorem get_audio_features_batches {num : Type} {N : Number num}
  (sp : @Spotify num) :
  (forall (tracks : list Track.t) (w : world),
     Forall has_id tracks ->
     let ids := kept_ids tracks in
     let requests := batches 100 ids in
     get_audio_features sp tracks w
     = Some
         (Ok (List.concat (map (audio_features sp) requests)),
          World (calls w ++ map AudioFeatures requests) (stdout w))
     /\ List.concat requests = ids
     /\ Forall (fun b => 1 <= List.length b <= 100) requests
     /\ (forall i,
           S i < List.length requests ->
           List.length (nth i requests []) = 100)
     /\ List.length requests = ceil_div100 (List.length ids))
  /\ (forall (before after : list Track.t) (track : Track.t) (e : exn)
             (w : world),
        Forall has_id before ->
        track_id track = Raise e ->
        get_audio_features sp (before ++ track :: after) w
        = Some (Raise e, w)).
Proof.
  split.
  - intros tracks w Hall ids requests. unfold requests, ids.
    split; [|split; [|split; [|split]]].
    + now apply get_audio_features_requests, track_ids_kept.
    + apply (concat_batches 99).
    + apply (batches_sizes 99).
    + intros i. apply (batches_full 99).
    + apply batches_count.
  - intros before after track e w Hbefore He.
    now apply get_audio_features_raises, track_ids_raise.
Qed.

(** C10. When every track reference has a null id, and so for the empty
    list, get_audio_features sends no request and returns the empty list. *)
Theorem get_audio_features_no_ids {num : Type} {N : Number num}
  (sp : @Spotify num) (tracks : list Track.t) (w : world) :
  Forall
    (fun track =>
       exists object,
         Track.track track = Value object /\ TrackObject.id object = Null)
    tracks ->
  get_audio_features sp tracks w = Some (Ok [], w).
Proof.
  intros Hall. apply null_ids_kept in Hall as [Hids Hkept].
  rewrite (get_audio_features_requests sp _ w (track_ids_kept Hids)).
  rewrite Hkept. simpl. now rewrite app_nil_r, world_eta.
Qed.

(** C7. When the cursors of the first page lead through the pages [ps] to a
    page that names no next one, and the fuel covers them, get_playlists and
    get_playlist_tracks collect the items of all the pages of [ps] in order,
    after the first request they send one [next] request for each page that
    names a next page, in order, [len(ps) - 1] in all, and no url is asked
    for twice. *)
Theorem pagination_follows_chain {num : Type} {N : Number num}
  (sp : @Spotify num) :
  (forall collab_only fuel w ps,
     page_chain (next_playlists sp) (current_user_playlists sp) ps ->
     List.length ps <= S fuel ->
     fetch_playlists sp fuel w
     = Some (Ok (all_items ps),
             World (calls w ++ CurrentUserPlaylists :: map Next (next_urls ps))
               (stdout w))
     /\ get_playlists sp collab_only fuel w
        = Some (Ok (resulting_playlists collab_only (all_items ps)),
                World
                  (calls w ++ CurrentUserPlaylists :: map Next (next_urls ps))
                  (stdout w))
     /\ List.length (next_urls ps) = List.length ps - 1
     /\ NoDup (next_urls ps))
  /\ (forall playlist_id fuel w ps,
        page_chain (next_tracks sp) (playlist_items sp playlist_id) ps ->
        List.length ps <= S fuel ->
        get_playlist_tracks sp playlist_id fuel w
        = Some (Ok (all_items ps),
                World
                  (calls w ++ PlaylistItems playlist_id
                           :: map Next (next_urls ps))
                  (stdout w))
        /\ List.length (next_urls ps) = List.length ps - 1
        /\ NoDup (next_urls ps)).
Proof.
  split.
  - intros collab_only fuel w ps Hch Hfuel.
    assert (fetch_playlists sp fuel w
            = Some (Ok (all_items ps),
                    World
                      (calls w ++ CurrentUserPlaylists
                               :: map Next (next_urls ps))
                      (stdout w))) as Hfetch.
    { unfold fetch_playlists, bind, request.
      rewrite (while_next_chain Hch) by exact Hfuel.
      destruct (chain_head Hch) as [r ->]. simpl.
      now rewrite <- app_assoc. }
    split; [exact Hfetch|]. split.
    + unfold get_playlists, bind. now rewrite Hfetch.
    + split; [eapply next_urls_length | eapply next_urls_NoDup]; exact Hch.
  - intros playlist_id fuel w ps Hch Hfuel. split.
    + unfold get_playlist_tracks, bind, request.
      rewrite (while_next_chain Hch) by exact Hfuel.
      destruct (chain_head Hch) as [r ->]. simpl.
      now rewrite <- app_assoc.
    + split; [eapply next_urls_length | eapply next_urls_NoDup]; exact Hch.
Qed.

(** ** sorted *)

Section SortFacts.
Variables (A K : Type) (ltK : K -> K -> bool).
Hypothesis ltK_irrefl : forall x, ltK x x = false.
Hypothesis ltK_trans :
  forall x y z, ltK x y = true -> ltK y z = true -> ltK x z = true.
Hypothesis ltK_cotrans :
  forall x y z, ltK x z = true -> ltK x y = true \/ ltK y z = true.
Implicit Types (x y : K * A) (l : list (K * A)).

Lemma insert_perm x l : Permutation (insert ltK x l) (x :: l).
Proof.
  induction l as [|y l IH]; simpl; [reflexivity|].
  destruct (ltK (fst y) (fst x)); [|reflexivity].
  rewrite IH. apply perm_swap.
Qed.

Lemma sort_stable_perm l : Permutation (sort_stable ltK l) l.
Proof.
  induction l as [|x l IH]; simpl; [reflexivity|].
  rewrite insert_perm. now constructor.
Qed.






End SortFacts.




(** ** Sequencing *)

Lemma bind_ok {A B : Type} (m : M A) (k : A -> M B) (w w' : world) (a : A) :
  m w = Some (Ok a, w') -> bind m k w = k a w'.
Proof. unfold bind. now intros ->. Qed.

Lemma bind_raise {A B : Type} (m : M A) (k : A -> M B) (w w' : world)
  (e : exn) :
  m w = Some (Raise e, w') -> bind m k w = Some (Raise e, w').
Proof. unfold bind. now intros ->. Qed.

Lemma for_each_M_app {A S : Type} (f : S -> A -> M S) (l1 l2 : list A) :
  forall s w,
    for_each_M f (l1 ++ l2) s w
    = bind (for_each_M f l1 s) (for_each_M f l2) w.
Proof.
  induction l1 as [|x l1 IH]; intros s w; [reflexivity|].
  simpl. unfold bind.
  destruct (f s x w) as [[[s'|e] w']|]; [|reflexivity..].
  rewrite IH. reflexivity.
Qed.

(** ** print_rankings *)

Section RankingFacts.
Context {num : Type} {N : Number num}.
Variable category : string.
Implicit Types (x : string * dict num) (l : list (string * dict num)).

Lemma rank_number_value x k :
  rank_value category x = Ok k -> rank_number category x = k.
Proof. unfold rank_number. now intros ->. Qed.


Lemma snd_keyed l : map snd (keyed category l) = l.
Proof. unfold keyed. rewrite map_map. apply map_id. Qed.

(** The keys are computed for all the entries, in order. *)
Lemma keys_computed l :
  Forall (ranked category) l ->
  forall acc,
    for_each
      (fun keyed x =>
         match getitem (snd x) category with
         | Ok k => Ok (keyed ++ [(k, x)])
         | Raise e => Raise e
         end)
      l acc
    = Ok (acc ++ keyed category l).
Proof.
  induction 1 as [|x l [k Hk] Hl IH]; intros acc; simpl.
  - now rewrite app_nil_r.
  - unfold rank_value in Hk. rewrite Hk, IH, <- app_assoc. simpl.
    change (getitem (snd x) category) with (rank_value category x) in Hk.
    now rewrite (rank_number_value x Hk).
Qed.

Lemma sorted_playlists_keyed l :
  Forall (ranked category) l ->
  sorted_playlists l category
  = Ok (map snd (rev (sort_stable lt (rev (keyed category l))))).
Proof.
  intros H. unfold sorted_playlists, sorted.
  now rewrite (keys_computed H).
Qed.


Lemma Forall_firstn {A : Type} (P : A -> Prop) (n : nat) (xs : list A) :
  Forall P xs -> Forall P (firstn n xs).
Proof.
  intros H. revert n. induction H; intros [|n]; simpl; auto.
Qed.

Lemma Forall_slice_to {A : Type} (P : A -> Prop) (n : Z) (xs : list A) :
  Forall P xs -> Forall P (slice_to n xs).
Proof.
  intros H. unfold slice_to. destruct (n <? 0)%Z; now apply Forall_firstn.
Qed.

(** The lines of the playlists of a block. *)
Lemma lines_printed l :
  Forall (ranked category) l ->
  forall w,
    for_each_M
      (fun _ playlist =>
         value <- lift (getitem (snd playlist) category) ;;
         print (fst playlist ++ ": " ++ show value))
      l tt w
    = Some (Ok tt,
            World (calls w) (stdout w ++ map (report_line category) l)).
Proof.
  induction 1 as [|x l [k Hk] Hl IH]; intros w; cbn [for_each_M map].
  - unfold ret. now rewrite app_nil_r, world_eta.
  - unfold bind at 1. unfold bind at 1. unfold lift at 1, print at 1.
    unfold rank_value in Hk. rewrite Hk.
    cbv beta iota. rewrite IH. cbn [calls stdout].
    replace (report_line category x) with (fst x ++ ": " ++ show k)%string
      by (unfold report_line, rank_number, rank_value; now rewrite Hk).
    now rewrite <- app_assoc.
Qed.

End RankingFacts.


(** ** main *)

Section Silence.

Lemma silent_ret {A : Type} (a : A) : silent (ret a).
Proof. intros w r w'. unfold ret. now intros [= _ <-]. Qed.

Lemma silent_lift {A : Type} (r : result A) : silent (lift r).
Proof. intros w r' w'. unfold lift. now intros [= _ <-]. Qed.

Lemma silent_request (c : call) : silent (request c).
Proof. intros w r w'. unfold request. now intros [= _ <-]. Qed.

Lemma silent_bind {A B : Type} (m : M A) (k : A -> M B) :
  silent m -> (forall a, silent (k a)) -> silent (bind m k).
Proof.
  intros Hm Hk w r w'. unfold bind.
  destruct (m w) as [[[a|e] w1]|] eqn:E; [| |discriminate].
  - intros H. rewrite (Hk a _ _ _ H). exact (Hm _ _ _ E).
  - intros [= _ <-]. exact (Hm _ _ _ E).
Qed.

Lemma silent_for_each_M {A S : Type} (f : S -> A -> M S) (l : list A) :
  (forall s x, silent (f s x)) -> forall s, silent (for_each_M f l s).
Proof.
  intros Hf. induction l as [|x l IH]; intros s; simpl.
  - apply silent_ret.
  - apply silent_bind; auto.
Qed.

Context {num : Type} {N : Number num} (sp : @Spotify num).

Lemma silent_while_next {A : Type} (sp_next : string -> page A) fuel :
  forall results acc, silent (while_next sp_next fuel results acc).
Proof.
  induction fuel as [|fuel IH]; intros results acc; simpl;
    destruct (truthy (next results)); try apply silent_ret.
  - intros w r w'. discriminate.
  - apply silent_bind; [apply silent_request | intros _; apply IH].
Qed.

Lemma silent_get_playlists collab_only fuel :
  silent (get_playlists sp collab_only fuel).
Proof.
  apply silent_bind; [|intros; apply silent_ret].
  apply silent_bind; [apply silent_request|].
  intros _. apply silent_while_next.
Qed.

Lemma silent_get_playlist_tracks playlist_id fuel :
  silent (get_playlist_tracks sp playlist_id fuel).
Proof.
  apply silent_bind; [apply silent_request|].
  intros _. apply silent_while_next.
Qed.

Lemma silent_get_audio_features tracks : silent (get_audio_features sp tracks).
Proof.
  intros w r w'. destruct (track_ids tracks) as [ids|e] eqn:E.
  - rewrite (get_audio_features_requests sp _ w E). now intros [= _ <-].
  - rewrite (get_audio_features_raises sp _ w E). now intros [= _ <-].
Qed.

Lemma silent_playlist_features fuel playlists playlist :
  silent (playlist_features sp fuel playlists playlist).
Proof.
  apply silent_bind; [apply silent_lift|]. intros playlist_id.
  apply silent_bind; [apply silent_get_playlist_tracks|]. intros tracks.
  apply silent_get_audio_features.
Qed.

Lemma silent_average_playlist fuel playlists averaged playlist :
  silent (average_playlist sp fuel playlists averaged playlist).
Proof.
  apply silent_bind; [apply silent_playlist_features|]. intros fs.
  apply silent_bind; [apply silent_lift | intros; apply silent_ret].
Qed.

End Silence.

(** C3 (as amended). When averaging raises an exception for a playlist,
    after the playlists before it were averaged, main ends there with that
    exception: nothing has been printed, neither a diagnostic nor a report,
    and the requests stop with those for the features of that playlist. *)
Theorem main_stops_at_failed_average {num : Type} {N : Number num}
  (names : list string) (sp : @Spotify num) (fuel : nat) (w w1 w2 w3 : world)
  (playlists : dict string) (done rest : list string) (failed : string)
  (averaged : dict (dict num)) (audio_features : list (@feature num))
  (e : exn) :
  get_playlists sp false fuel w = Some (Ok playlists, w1) ->
  keys playlists = done ++ failed :: rest ->
  for_each_M (average_playlist sp fuel playlists) done [] w1
  = Some (Ok averaged, w2) ->
  playlist_features sp fuel playlists failed w2
  = Some (Ok audio_features, w3) ->
  average_audio_features audio_features = Raise e ->
  main names sp fuel w = Some (Raise e, w3)
  /\ stdout w3 = stdout w.
Proof.
  intros Hget Hkeys Hdone Hfeatures Haverage. split.
  - unfold main. rewrite bind_ok with (a := playlists) (w' := w1) by exact Hget.
    apply bind_raise. rewrite Hkeys, for_each_M_app.
    rewrite bind_ok with (a := averaged) (w' := w2) by exact Hdone.
    cbn [for_each_M]. apply bind_raise. unfold average_playlist.
    rewrite bind_ok with (a := audio_features) (w' := w3) by exact Hfeatures.
    apply bind_raise. unfold lift. now rewrite Haverage.
  - transitivity (stdout w2);
      [eapply silent_playlist_features; exact Hfeatures|].
    transitivity (stdout w1);
      [|eapply silent_get_playlists; exact Hget].
    eapply silent_for_each_M; [|exact Hdone].
    intros; apply silent_average_playlist.
Qed.

(** ** The rationals are ordered numbers *)



(** ** The script on the small account *)

Example average_mix :
  average_audio_features [Demo.features_of "t1"; Demo.features_of "t2"]
  = Ok [ ("danceability", 3 # 5); ("energy", 17 # 20);
         ("loudness", -523 # 100); ("speechiness", 1 # 25);
         ("acousticness", 1 # 10); ("instrumentalness", 0);
         ("liveness", 3 # 25); ("valence", 1 # 2); ("tempo", 3007 # 25) ]%Q.
Proof. reflexivity. Qed.

(** Ints and floats average to a float; an int beyond the floats overflows
    when it meets a float, or when it is divided. *)
Example average_int_and_float :
  @average_audio_features Python.number Python.number_ops
    [Python.constant (Python.Int 1); Python.constant (Python.Float (1 # 2))]
  = Ok (tabulate (fun _ => Python.Float (3 # 4)) nine_descriptors).
Proof. vm_compute. reflexivity. Qed.

Example average_huge_int_and_float :
  @average_audio_features Python.number Python.number_ops
    [Python.constant (Python.Float (1 # 2)); Python.huge]
  = Raise OverflowError.
Proof. vm_compute. reflexivity. Qed.

(** A vector without a descriptor, and a null entry, stop the averaging. *)
Example average_missing_descriptor :
  average_audio_features
    [Demo.features_of "t1"; Some [("danceability", PyNum (1 # 2)%Q)]]
  = Raise (KeyError "energy").
Proof. reflexivity. Qed.

Example average_null_entry :
  average_audio_features [Demo.features_of "t1"; Demo.features_of "unknown"]
  = Raise TypeError.
Proof. reflexivity. Qed.

Example get_playlists_abc :
  get_playlists Demo.sp_abc true 0 empty_world
  = Some (Ok [("A", "idA"); ("C", "idC")], World [CurrentUserPlaylists] []).
Proof. reflexivity. Qed.

Example batches_of_250 :
  map (@List.length string) (batches 100 (kept_ids Demo.tracks250))
  = [100; 100; 50]
  /\ option_map (fun r => List.length (calls (snd r)))
       (get_audio_features Demo.sp Demo.tracks250 empty_world)
     = Some 3.
Proof. split; vm_compute; reflexivity. Qed.

Example rank_xyz :
  option_map (fun r => stdout (snd r))
    (print_category Demo.xyz 2 "energy" empty_world)
  = Some [heading "energy"; "Y: 0.95"; "Z: 0.95"; ""].
Proof. vm_compute. reflexivity. Qed.

Example main_demo_danceability :
  option_map (fun r => firstn 4 (stdout (snd r)))
    (main audio_feature_names Demo.sp 2 empty_world)
  = Some [heading "danceability"; "Mix: 0.6"; "Solo: 0.3"; ""].
Proof. vm_compute. reflexivity. Qed.

Lemma demo_playlists_chain :
  page_chain (next_playlists Demo.sp) (current_user_playlists Demo.sp)
    [Demo.playlists_p0; Demo.playlists_p1; Demo.playlists_p2].
Proof.
  apply chain_more with (url := "me/playlists?offset=1"); [reflexivity|].
  apply chain_more with (url := "me/playlists?offset=2"); [reflexivity|].
  apply chain_last. reflexivity.
Defined.

Lemma demo_tracks_chain :
  page_chain (next_tracks Demo.sp) (playlist_items Demo.sp "idC")
    [Demo.tracks_c0; Demo.tracks_c1].
Proof.
  apply chain_more with (url := "idC/tracks?offset=2"); [reflexivity|].
  apply chain_last. reflexivity.
Defined.

Lemma demo_numeric (i : string) :
  Demo.features_of i <> None -> numeric_feature (Demo.features_of i).
Proof.
  unfold Demo.features_of.
  repeat (match goal with |- context [if ?b then _ else _] => destruct b end);
    try congruence;
    intros _ c Hc; simpl in Hc;
    repeat (destruct Hc as [<- | Hc]; [discriminate|]); contradiction.
Defined.

(** Witnesses and counterexamples *)

Lemma average_audio_features_mean_witness :
  exists averages,
    average_audio_features [Demo.features_of "t1"; Demo.features_of "t2"]
    = Ok averages
    /\ keys averages = nine_descriptors
    /\ forall category,
         In category nine_descriptors ->
         get category averages
         = rounded_mean category
             [Demo.features_of "t1"; Demo.features_of "t2"].
Proof.
  apply average_audio_features_mean.
  - discriminate.
  - repeat constructor; apply demo_numeric; discriminate.
  - intros c Hc. simpl in Hc.
    repeat (destruct Hc as [<- | Hc]; [vm_compute; discriminate|]).
    contradiction.
Defined.

Lemma average_audio_features_mean_counterexample :
  [Python.huge] <> []
  /\ Forall has_nine_numbers [Python.huge]
  /\ @average_audio_features Python.number Python.number_ops [Python.huge]
     = Raise OverflowError.
Proof.
  split; [discriminate|]. split; [|vm_compute; reflexivity].
  repeat constructor. intros c Hc. simpl in Hc.
  repeat (destruct Hc as [<- | Hc]; [discriminate|]). contradiction.
Qed.

Lemma average_audio_features_empty_counterexample :
  average_audio_features (@nil (@feature Q)) = Raise ZeroDivisionError
  /\ ~ (exists e,
          e <> ZeroDivisionError
          /\ average_audio_features (@nil (@feature Q)) = Raise e).
Proof.
  split; [reflexivity|]. intros (e & Hne & H).
  change (@Raise (dict Q) ZeroDivisionError = Raise e) in H.
  injection H as <-. now apply Hne.
Qed.

Lemma main_aborts_counterexample :
  main (@descriptors Q _) Demo.sp_empty_first 5 empty_world
  = Some (Raise ZeroDivisionError,
          World [CurrentUserPlaylists; PlaylistItems "idE"] [])
  /\ playlist_features Demo.sp_empty_first 5
       [("Empty", "idE"); ("Solo", "idB")] "Empty"
       (World [CurrentUserPlaylists] [])
     = Some (Ok [], World [CurrentUserPlaylists; PlaylistItems "idE"] [])
  /\ (exists averages,
        average_audio_features [Demo.features_of "t3"; Demo.features_of "t4"]
        = Ok averages).
Proof.
  split; [reflexivity|]. split; [reflexivity|]. eexists. reflexivity.
Qed.

Lemma main_stops_at_failed_average_witness :
  main (@descriptors Q _) Demo.sp_empty_first 5 empty_world
  = Some (Raise ZeroDivisionError,
          World [CurrentUserPlaylists; PlaylistItems "idE"] [])
  /\ stdout (World [CurrentUserPlaylists; PlaylistItems "idE"] [])
     = stdout empty_world.
Proof.
  apply main_stops_at_failed_average
    with (w1 := World [CurrentUserPlaylists] [])
         (w2 := World [CurrentUserPlaylists] [])
         (playlists := [("Empty", "idE"); ("Solo", "idB")])
         (done := []) (rest := ["Solo"]) (failed := "Empty")
         (averaged := []) (audio_features := []); reflexivity.
Defined.

Lemma get_playlists_filters_witness :
  exists resulting,
    get_playlists Demo.sp_abc true 0 empty_world
    = Some (Ok resulting, World [CurrentUserPlaylists] [])
    /\ NoDup (keys resulting)
    /\ (forall n,
          In n (keys resulting)
          <-> exists item,
                In item Demo.abc /\ Playlist.name item = n
                /\ (true = true -> Playlist.collaborative item = true))
    /\ (forall n i,
          get n resulting = Some i ->
          exists item,
            In item Demo.abc /\ Playlist.name item = n
            /\ Playlist.id item = i
            /\ (true = true -> Playlist.collaborative item = true)).
Proof.
  apply get_playlists_filters. reflexivity.
Defined.

Lemma get_playlists_last_wins_witness :
  exists resulting,
    get_playlists Demo.sp false 2 empty_world
    = Some (Ok resulting,
            World
              [CurrentUserPlaylists; Next "me/playlists?offset=1";
               Next "me/playlists?offset=2"] [])
    /\ get "Mix" resulting = Some "idC".
Proof.
  apply (@get_playlists_last_wins Q _ Demo.sp false 2 empty_world _
           [Demo.mix_a; Demo.solo] [] Demo.mix_c).
  - reflexivity.
  - reflexivity.
  - intros later [].
Defined.

Lemma get_audio_features_batches_counterexample :
  (non_null_ids [reference (Some "")] = [""]
   /\ batches 100 (non_null_ids [reference (Some "")]) = [[""]]
   /\ get_audio_features Demo.sp [reference (Some "")] empty_world
      = Some (Ok [], empty_world))
  /\ get_audio_features Demo.sp [reference (Some "t1"); Track.Make Null]
       empty_world
     = Some (Raise TypeError, empty_world).
Proof. repeat split. Qed.

Lemma get_audio_features_batches_witness :
  (let ids := kept_ids Demo.tracks250 in
   let requests := batches 100 ids in
   get_audio_features Demo.sp Demo.tracks250 empty_world
   = Some
       (Ok (List.concat (map (audio_features Demo.sp) requests)),
        World (calls empty_world ++ map AudioFeatures requests)
          (stdout empty_world))
   /\ List.concat requests = ids
   /\ Forall (fun b => 1 <= List.length b <= 100) requests
   /\ (forall i,
         S i < List.length requests ->
         List.length (nth i requests []) = 100)
   /\ List.length requests = ceil_div100 (List.length ids))
  /\ get_audio_features Demo.sp
       ([reference (Some "t1")] ++ Track.Make Null :: [reference None])
       empty_world
     = Some (Raise TypeError, empty_world).
Proof.
  split.
  - apply (proj1 (get_audio_features_batches Demo.sp)).
    apply Forall_map, Forall_forall. intros n _. eexists. reflexivity.
  - apply (proj2 (get_audio_features_batches Demo.sp)).
    + repeat constructor. eexists. reflexivity.
    + reflexivity.
Defined.

Lemma pagination_follows_chain_witness :
  (fetch_playlists Demo.sp 2 empty_world
   = Some (Ok [Demo.mix_a; Demo.solo; Demo.mix_c],
           World
             [CurrentUserPlaylists; Next "me/playlists?offset=1";
              Next "me/playlists?offset=2"] [])
   /\ get_playlists Demo.sp false 2 empty_world
      = Some (Ok [("Mix", "idC"); ("Solo", "idB")],
              World
                [CurrentUserPlaylists; Next "me/playlists?offset=1";
                 Next "me/playlists?offset=2"] [])
   /\ List.length
        (next_urls
           [Demo.playlists_p0; Demo.playlists_p1; Demo.playlists_p2])
      = 2
   /\ NoDup
        (next_urls
           [Demo.playlists_p0; Demo.playlists_p1; Demo.playlists_p2]))
  /\ (get_playlist_tracks Demo.sp "idC" 1 empty_world
      = Some (Ok [reference (Some "t1"); reference None;
                  reference (Some "t2")],
              World [PlaylistItems "idC"; Next "idC/tracks?offset=2"] [])
      /\ List.length (next_urls [Demo.tracks_c0; Demo.tracks_c1]) = 1
      /\ NoDup (next_urls [Demo.tracks_c0; Demo.tracks_c1])).
Proof.
  split.
  - apply (proj1 (pagination_follows_chain Demo.sp) false 2 empty_world
             [Demo.playlists_p0; Demo.playlists_p1; Demo.playlists_p2]
             demo_playlists_chain).
    simpl. lia.
  - apply (proj2 (pagination_follows_chain Demo.sp) "idC" 1 empty_world
             [Demo.tracks_c0; Demo.tracks_c1] demo_tracks_chain).
    simpl. lia.
Defined.


Lemma get_audio_features_no_ids_witness :
  get_audio_features Demo.sp [reference None; reference None] empty_world
  = Some (Ok [], empty_world).
Proof.
  apply get_audio_features_no_ids.
  repeat constructor; eexists; split; reflexivity.
Defined.

(** * Further properties *)

(** ** When average_audio_features succeeds, and how it fails *)

Section AverageOutcome.
Context {num : Type} {N : Number num}.
Implicit Types (f : @feature num) (fs : list (@feature num)).

(** A [+=] that succeeds found a number. *)
Lemma accumulate_ok_numeric f (cumulative cumulative' : dict num) category :
  accumulate f cumulative category = Ok cumulative' ->
  numeric_value category f <> None.
Proof.
  unfold accumulate, subscript, numeric_value.
  destruct (get category cumulative); [|discriminate].
  destruct f as [d|]; [|discriminate].
  destruct (get category d) as [[|x|s]|]; simpl; intros H;
    first [discriminate H | discriminate].
Qed.

Lemma accumulate_all_ok_numeric f cs :
  forall cumulative cumulative' : dict num,
    for_each (accumulate f) cs cumulative = Ok cumulative' ->
    forall c, In c cs -> numeric_value c f <> None.
Proof.
  induction cs as [|c0 cs IH]; intros cumulative cumulative' H c; simpl in *;
    [tauto|].
  destruct (accumulate f cumulative c0) as [c1|] eqn:E; [|discriminate].
  intros [<- | Hin]; [now apply accumulate_ok_numeric in E | eauto].
Qed.

(** A loop over the vectors that succeeds found only numeric vectors. *)
Lemma accumulate_features_ok_numeric fs :
  forall cumulative cumulative' : dict num,
    keys cumulative = descriptors ->
    for_each
      (fun cumulative audio_feature =>
         for_each (accumulate audio_feature) (keys cumulative) cumulative)
      fs cumulative
    = Ok cumulative' ->
    Forall numeric_feature fs.
Proof.
  induction fs as [|f fs IH]; intros cumulative cumulative' Hkeys H;
    [constructor|].
  simpl in H.
  destruct (for_each (accumulate f) (keys cumulative) cumulative)
    as [c1|] eqn:E; [|discriminate].
  constructor.
  - intros c Hc. rewrite <- Hkeys in Hc.
    eapply accumulate_all_ok_numeric; [exact E | exact Hc].
  - apply (IH c1 cumulative'); [|exact H].
    rewrite <- Hkeys. eapply for_each_keys; [|exact E].
    intros d c d'. apply accumulate_keys.
Qed.

(** The first [+=] that finds no number raises, after the numeric
    categories before it, unless one of these overflows. *)
Lemma accumulate_offence f ks before category after (g : string -> num) :
  NoDup ks -> ks = before ++ category :: after ->
  (forall c, In c before -> numeric_value c f <> None) ->
  numeric_value category f = None ->
  for_each (accumulate f) (keys (tabulate g ks)) (tabulate g ks)
  = if forallb (fun k => defined (add (g k) (value_of k f))) before
    then Raise (offence category f)
    else Raise OverflowError.
Proof.
  intros Hnd Hks Hbefore Hnone. rewrite keys_tabulate.
  rewrite Hks at 1. rewrite for_each_app.
  assert (NoDup before /\ incl before ks /\ In category ks)
    as (Hnb & Hincl & Hin).
  { subst ks. split; [|split].
    - now apply NoDup_app_remove_r in Hnd.
    - apply incl_appl, incl_refl.
    - apply in_or_app. right. now left. }
  rewrite accumulate_some by assumption.
  destruct (forallb _ before); [|reflexivity].
  cbn [for_each]. unfold accumulate at 1.
  rewrite (@get_tabulate _ _ ks category Hin).
  unfold subscript, offence, numeric_value in *.
  destruct f as [d|]; [|reflexivity].
  destruct (get category d) as [[|x|s]|]; try reflexivity. discriminate.
Qed.

(** The sum with one more vector. *)
Lemma total_snoc category fs f :
  total category (fs ++ [f])
  = add_to (total category fs) (value_of category f).
Proof.
  unfold total, sum_from. now rewrite map_app, fold_left_app.
Qed.

End AverageOutcome.

(** X1. average_audio_features returns a mapping exactly when the list is not
    empty, every vector of it has a number for each of the nine descriptors,
    and no sum of a descriptor and no division by the count overflows. *)
Theorem average_audio_features_succeeds_iff {num : Type} {N : Number num}
  (audio_features : list (@feature num)) :
  (exists averages, average_audio_features audio_features = Ok averages)
  <-> audio_features <> []
      /\ Forall has_nine_numbers audio_features
      /\ (forall category,
            In category nine_descriptors ->
            rounded_mean category audio_features <> None).
Proof.
  split.
  - intros [averages H].
    assert (Forall numeric_feature audio_features) as Hnum.
    { unfold average_audio_features in H.
      destruct (for_each _ audio_features cumulative_audio_features)
        as [cumulative|] eqn:E; [|discriminate].
      eapply accumulate_features_ok_numeric; [|exact E]. reflexivity. }
    destruct audio_features as [|f fs]; [discriminate H|].
    split; [discriminate|]. split; [exact Hnum|].
    destruct (average_outcome Hnum) as [[Hdefined _] | [_ Hraise]];
      [exact Hdefined | congruence].
  - intros (Hne & Hnum & Hdefined).
    destruct audio_features as [|f fs]; [congruence|].
    destruct (average_outcome Hnum) as [[_ Hok] | [(c & Hc & Hnone) _]];
      [eauto | now destruct (Hdefined c Hc)].
Qed.

(** X2. The first vector without a number for some descriptor stops
    average_audio_features at the first such descriptor: TypeError for a null
    vector or a value that is not a number, KeyError of that descriptor when
    the vector lacks it; the vectors after it are not looked at. This is so
    when the sums of the vectors before it, and of the descriptors before
    that one with it, do not overflow; otherwise OverflowError is raised. *)
Theorem average_audio_features_first_offence {num : Type} {N : Number num}
  (good rest : list (@feature num)) (bad : @feature num)
  (before after : list string) (category : string) :
  Forall numeric_feature good ->
  descriptors = before ++ category :: after ->
  (forall c, In c before -> numeric_value c bad <> None) ->
  numeric_value category bad = None ->
  (sums_defined descriptors good /\ sums_defined before (good ++ [bad]) ->
   average_audio_features (good ++ bad :: rest)
   = Raise (offence category bad))
  /\ (~ (sums_defined descriptors good
         /\ sums_defined before (good ++ [bad])) ->
      average_audio_features (good ++ bad :: rest) = Raise OverflowError).
Proof.
  intros Hgood Hks Hbefore Hnone. unfold average_audio_features.
  rewrite for_each_app, cumulative_tabulate.
  rewrite accumulate_features by assumption.
  assert (incl before descriptors) as Hincl.
  { rewrite Hks. apply incl_appl, incl_refl. }
  destruct (totals descriptors (fun _ => zero) good) as [sums|] eqn:E.
  - pose proof (totals_Some _ _ _ E) as Hsums. cbn [for_each].
    rewrite accumulate_offence
      with (before := before) (category := category) (after := after);
      auto using NoDup_descriptors.
    assert (forall c, In c before ->
              total c (good ++ [bad]) = add (sums c) (value_of c bad))
      as Hsnoc.
    { intros c Hc. rewrite total_snoc. unfold total.
      now rewrite (Hsums c (Hincl c Hc)). }
    destruct (forallb _ before) eqn:Eb.
    + split; [reflexivity|]. intros Hno. exfalso. apply Hno. split.
      * intros c Hc. unfold total. rewrite (Hsums c Hc). discriminate.
      * intros c Hc. rewrite (Hsnoc c Hc).
        rewrite forallb_forall in Eb.
        destruct (defined_Some _ (Eb c Hc)) as [sum ->]. discriminate.
    + split; [|reflexivity]. intros [_ Hdefined]. exfalso.
      apply forallb_false_In in Eb as (c & Hc & Eb).
      apply (Hdefined c Hc). rewrite (Hsnoc c Hc).
      now destruct (add (sums c) (value_of c bad)).
  - split; [|reflexivity]. intros [Hdefined _]. exfalso.
    destruct (totals_None _ _ _ E) as (c & Hc & Hsum).
    exact (Hdefined c Hc Hsum).
Qed.

Lemma average_audio_features_first_offence_witness :
  average_audio_features
    ([Demo.features_of "t1"]
     ++ Some [("danceability", PyNum (1 # 2)%Q)] :: [Demo.features_of "t2"])
  = Raise (offence "energy" (Some [("danceability", PyNum (1 # 2)%Q)])).
Proof.
  apply (proj1
           (@average_audio_features_first_offence Q _
              [Demo.features_of "t1"] [Demo.features_of "t2"]
              (Some [("danceability", PyNum (1 # 2)%Q)])
              ["danceability"]
              ["loudness"; "speechiness"; "acousticness";
               "instrumentalness"; "liveness"; "valence"; "tempo"]
              "energy"
              ltac:(repeat constructor; apply demo_numeric; discriminate)
              eq_refl
              ltac:(intros c [<- | []]; discriminate)
              eq_refl)).
  split; intros c Hc; simpl in Hc;
    repeat (destruct Hc as [<- | Hc]; [vm_compute; discriminate|]);
    contradiction.
Defined.

(** ** Pagination that does not end *)

Lemma while_next_never_ends {A : Type} (sp_next : string -> page A)
  (P : page A -> Prop) :
  (forall q, P q -> exists url, truthy (next q) = Some url /\ P (sp_next url)) ->
  forall fuel results acc w,
    P results -> while_next sp_next fuel results acc w = None.
Proof.
  intros Hstep. induction fuel as [|fuel IH]; intros results acc w Hp;
    destruct (Hstep results Hp) as (url & Hurl & Hnext); simpl; rewrite Hurl.
  - reflexivity.
  - unfold bind, request. now apply IH.
Qed.

(** X3. When the cursors never run out (every page reached names a next
    page, as on a cycle of urls), get_playlists and get_playlist_tracks do not
    return, whatever the fuel: the loops have no bound of their own. *)
Theorem pagination_never_ends {num : Type} {N : Number num}
  (sp : @Spotify num) :
  (forall (P : page Playlist.t -> Prop) collab_only fuel w,
     (forall q, P q ->
        exists url, truthy (next q) = Some url /\ P (next_playlists sp url)) ->
     P (current_user_playlists sp) ->
     get_playlists sp collab_only fuel w = None)
  /\ (forall (P : page Track.t -> Prop) playlist_id fuel w,
        (forall q, P q ->
           exists url, truthy (next q) = Some url /\ P (next_tracks sp url)) ->
        P (playlist_items sp playlist_id) ->
        get_playlist_tracks sp playlist_id fuel w = None).
Proof.
  split.
  - intros P collab_only fuel w Hstep Hfirst.
    unfold get_playlists, fetch_playlists, bind, request.
    now rewrite (while_next_never_ends _ P Hstep).
  - intros P playlist_id fuel w Hstep Hfirst.
    unfold get_playlist_tracks, bind, request.
    now rewrite (while_next_never_ends _ P Hstep).
Qed.

Lemma pagination_never_ends_witness :
  get_playlist_tracks DemoLoop.sp "idA" 1000 empty_world = None.
Proof.
  apply (proj2 (pagination_never_ends DemoLoop.sp)
           (fun q => q = DemoLoop.again)).
  - intros q ->. exists "tracks?offset=0". split; reflexivity.
  - reflexivity.
Defined.

(** ** Batches do not show *)

(** X4. When the service answers a request id by id, and the entries all
    have a track object with an id, get_audio_features returns the answers
    for the kept ids of the playlist, in their order: cutting the ids into
    batches does not change the result. *)
Theorem get_audio_features_per_id {num : Type} {N : Number num}
  (sp : @Spotify num) (answer : string -> @feature num)
  (tracks : list Track.t) (w : world) :
  (forall ids, audio_features sp ids = map answer ids) ->
  Forall has_id tracks ->
  get_audio_features sp tracks w
  = Some (Ok (map answer (kept_ids tracks)),
          World (calls w ++ map AudioFeatures (batches 100 (kept_ids tracks)))
            (stdout w)).
Proof.
  intros Hanswer Hall.
  rewrite (get_audio_features_requests sp _ w (track_ids_kept Hall)).
  do 3 f_equal.
  rewrite (map_ext _ _ Hanswer), <- concat_map.
  now rewrite (concat_batches 99).
Qed.

Lemma get_audio_features_per_id_witness :
  get_audio_features Demo.sp Demo.tracks250 empty_world
  = Some (Ok (map Demo.features_of (kept_ids Demo.tracks250)),
          World
            (calls empty_world
             ++ map AudioFeatures (batches 100 (kept_ids Demo.tracks250)))
            (stdout empty_world)).
Proof.
  apply (@get_audio_features_per_id Q _ Demo.sp Demo.features_of).
  - reflexivity.
  - apply Forall_map, Forall_forall. intros n _. eexists. reflexivity.
Defined.

(** ** Playlists with different names *)

Lemma assigned_fresh (l : list Playlist.t) :
  forall d : dict string,
    NoDup (keys d ++ map Playlist.name l) ->
    fold_left assign l d = d ++ map entry l.
Proof.
  induction l as [|item l IH]; intros d Hnd; simpl.
  - now rewrite app_nil_r.
  - unfold assign at 2. rewrite set_fresh.
    + rewrite IH.
      * now rewrite <- app_assoc.
      * unfold keys. rewrite map_app. simpl. rewrite <- app_assoc.
        exact Hnd.
    + simpl in Hnd. apply NoDup_remove_2 in Hnd. intros Hin. apply Hnd.
      apply in_or_app. now left.
Qed.

(** X5. When the playlists that get_playlists keeps have different names,
    the mapping returned lists them all, each name with its id, in the order
    they were fetched. *)
Theorem get_playlists_without_collision {num : Type} {N : Number num}
  (sp : @Spotify num) (collab_only : bool) (fuel : nat) (w w' : world)
  (playlists : list Playlist.t) :
  fetch_playlists sp fuel w = Some (Ok playlists, w') ->
  NoDup (map Playlist.name (filter (kept collab_only) playlists)) ->
  get_playlists sp collab_only fuel w
  = Some (Ok (map entry (filter (kept collab_only) playlists)), w').
Proof.
  intros Hfetch Hnd. unfold get_playlists, bind. rewrite Hfetch.
  unfold ret, resulting_playlists.
  now rewrite resulting_filter, assigned_fresh.
Qed.

Lemma get_playlists_without_collision_witness :
  get_playlists Demo.sp_abc false 0 empty_world
  = Some (Ok (map entry (filter (kept false) Demo.abc)),
          World [CurrentUserPlaylists] []).
Proof.
  apply get_playlists_without_collision; [reflexivity|].
  simpl. repeat (constructor; [simpl; intuition discriminate|]). constructor.
Defined.

(** ** The report *)

Lemma bind_inv_ok {A B : Type} (m : M A) (k : A -> M B) (w w' : world) (b : B) :
  bind m k w = Some (Ok b, w') ->
  exists a w1, m w = Some (Ok a, w1) /\ k a w1 = Some (Ok b, w').
Proof.
  unfold bind. destruct (m w) as [[[a|e] w1]|]; try discriminate. eauto.
Qed.

Lemma length_slice_to {A : Type} (n : Z) (l : list A) :
  List.length (slice_to n l)
  = if (n <? 0)%Z then List.length l - Z.to_nat (- n)
    else Nat.min (Z.to_nat n) (List.length l).
Proof.
  unfold slice_to. destruct (n <? 0)%Z; rewrite length_firstn; lia.
Qed.

(** [l[:n]] is the start of [l]; what it leaves out is counted. *)
Lemma slice_to_split {A : Type} (n : Z) (l : list A) :
  exists dropped,
    l = slice_to n l ++ dropped
    /\ List.length dropped
       = if (n <? 0)%Z then Nat.min (Z.to_nat (- n)) (List.length l)
         else List.length l - Z.to_nat n.
Proof.
  unfold slice_to. destruct (n <? 0)%Z.
  - exists (skipn (List.length l - Z.to_nat (- n)) l).
    split; [symmetry; apply firstn_skipn | rewrite length_skipn; lia].
  - exists (skipn (Z.to_nat n) l).
    split; [symmetry; apply firstn_skipn | apply length_skipn].
Qed.

Section ReportFacts.
Context {num : Type} {N : Number num}.
Implicit Types (paf : dict (dict num)) (category : string).

Lemma ranking_keyed category paf :
  Forall (ranked category) paf ->
  ranking category paf
  = map snd (rev (sort_stable lt (rev (keyed category paf)))).
Proof.
  intros H. unfold ranking. now rewrite (@sorted_playlists_keyed _ _ category).
Qed.

Lemma ranking_perm category paf :
  Forall (ranked category) paf -> Permutation (ranking category paf) paf.
Proof.
  intros H. rewrite ranking_keyed by assumption.
  rewrite <- Permutation_rev, sort_stable_perm, <- Permutation_rev.
  now rewrite snd_keyed.
Qed.

(** The block of a category whose value every vector has. *)
Lemma print_category_block category paf top_amount w :
  Forall (ranked category) paf ->
  print_category paf top_amount category w
  = Some (Ok tt, World (calls w) (stdout w ++ block paf top_amount category)).
Proof.
  intros H. unfold print_category.
  rewrite bind_ok
    with (a := tt) (w' := World (calls w) (stdout w ++ [heading category]))
    by reflexivity.
  rewrite bind_ok
    with (a := ranking category paf)
         (w' := World (calls w) (stdout w ++ [heading category]))
    by (unfold lift, ranking;
        now rewrite (@sorted_playlists_keyed _ _ category _ H)).
  erewrite bind_ok
    by (apply lines_printed, Forall_slice_to;
        exact (Permutation_Forall (Permutation_sym (ranking_perm H)) H)).
  unfold print, block. cbn [calls stdout]. now rewrite <- !app_assoc.
Qed.

Lemma print_rankings_blocks names paf top_amount :
  (forall category, In category names -> Forall (ranked category) paf) ->
  forall w,
    print_rankings names paf top_amount w
    = Some (Ok tt,
            World (calls w)
              (stdout w ++ flat_map (block paf top_amount) names)).
Proof.
  unfold print_rankings.
  induction names as [|category names IH]; intros H w; cbn [for_each_M flat_map].
  - unfold ret. now rewrite app_nil_r, world_eta.
  - erewrite bind_ok by (apply print_category_block; auto with datatypes).
    rewrite IH by auto with datatypes. cbn [calls stdout].
    now rewrite <- app_assoc.
Qed.

(** A vector without the category makes the sort raise KeyError. *)
Lemma keys_missing category (l : list (string * dict num)) :
  Exists (fun x => get category (snd x) = None) l ->
  forall acc,
    for_each
      (fun keyed x =>
         match getitem (snd x) category with
         | Ok k => Ok (keyed ++ [(k, x)])
         | Raise e => Raise e
         end)
      l acc
    = Raise (KeyError category).
Proof.
  induction l as [|x l IH]; intros H acc; [inversion H|].
  cbn [for_each]. unfold getitem at 1.
  destruct (get category (snd x)) eqn:E; [|reflexivity].
  apply IH. inversion H; subst; [congruence | assumption].
Qed.

Lemma print_category_key_error category paf top_amount w :
  Exists (fun x => get category (snd x) = None) paf ->
  print_category paf top_amount category w
  = Some (Raise (KeyError category),
          World (calls w) (stdout w ++ [heading category])).
Proof.
  intros H. unfold print_category.
  rewrite bind_ok
    with (a := tt) (w' := World (calls w) (stdout w ++ [heading category]))
    by reflexivity.
  apply bind_raise. unfold lift, sorted_playlists, sorted.
  now rewrite (@keys_missing category paf H).
Qed.

(** A vector with the nine descriptors can be ranked by each of them. *)
Lemma ranked_by_descriptor category (x : string * dict num) :
  keys (snd x) = descriptors -> In category descriptors -> ranked category x.
Proof.
  intros Hkeys Hin. unfold ranked, rank_value, getitem.
  destruct (get category (snd x)) as [k|] eqn:E; [eauto|].
  exfalso. rewrite <- Hkeys in Hin. apply get_keys in Hin. congruence.
Qed.

End ReportFacts.

(** X6. When every vector has every category of [audio_feature_names],
    print_rankings sends no request and prints one block per category, in
    order: the heading, one line per listed playlist, an empty line; each
    block has as many playlist lines as [l[:top_amount]] keeps of the
    playlists, and ranks all the playlists of the mapping. *)
Theorem print_rankings_report {num : Type} {N : Number num}
  (names : list string) (playlists_audio_features : dict (dict num))
  (top_amount : Z) (w : world) :
  (forall category,
     In category names -> Forall (ranked category) playlists_audio_features) ->
  print_rankings names playlists_audio_features top_amount w
  = Some (Ok tt,
          World (calls w)
            (stdout w
             ++ flat_map (block playlists_audio_features top_amount) names))
  /\ forall category,
       In category names ->
       Permutation (ranking category playlists_audio_features)
         playlists_audio_features
       /\ List.length (block playlists_audio_features top_amount category)
          = 2 + List.length (slice_to top_amount playlists_audio_features).
Proof.
  intros H. split; [now apply print_rankings_blocks|].
  intros category Hin. pose proof (ranking_perm (H category Hin)) as Hperm.
  split; [exact Hperm|]. unfold block. cbn [List.length].
  rewrite length_app, length_map, !length_slice_to.
  rewrite (Permutation_length Hperm). simpl. lia.
Qed.

Lemma print_rankings_report_witness :
  print_rankings ["energy"] Demo.xyz 2 empty_world
  = Some (Ok tt,
          World (calls empty_world)
            (stdout empty_world ++ flat_map (block Demo.xyz 2) ["energy"]))
  /\ forall category,
       In category ["energy"] ->
       Permutation (ranking category Demo.xyz) Demo.xyz
       /\ List.length (block Demo.xyz 2 category)
          = 2 + List.length (slice_to 2 Demo.xyz).
Proof.
  apply print_rankings_report.
  intros category [<- | []]. repeat constructor; eexists; reflexivity.
Defined.

(** X7. The playlists a block lists are the start of the ranking of its
    category: with [top_amount >= 0] all but the playlists after the first
    [top_amount], so all of them when there are no more than that; with a
    negative [top_amount] all but the last [-top_amount]. *)
Theorem print_category_lists_prefix {num : Type} {N : Number num}
  (playlists_audio_features : dict (dict num)) (top_amount : Z)
  (category : string) (w : world) :
  Forall (ranked category) playlists_audio_features ->
  exists listed dropped,
    print_category playlists_audio_features top_amount category w
    = Some (Ok tt,
            World (calls w)
              (stdout w
               ++ heading category
                  :: map (report_line category) listed ++ [""]))
    /\ ranking category playlists_audio_features = listed ++ dropped
    /\ List.length dropped
       = if (top_amount <? 0)%Z
         then Nat.min (Z.to_nat (- top_amount))
                (List.length playlists_audio_features)
         else List.length playlists_audio_features - Z.to_nat top_amount.
Proof.
  intros H.
  destruct (slice_to_split top_amount
              (ranking category playlists_audio_features))
    as (dropped & Hsplit & Hlen).
  exists (slice_to top_amount (ranking category playlists_audio_features)),
    dropped.
  split; [now apply print_category_block|]. split; [exact Hsplit|].
  now rewrite (Permutation_length (ranking_perm H)) in Hlen.
Qed.

Lemma print_category_lists_prefix_witness :
  exists listed dropped,
    print_category Demo.xyz (-1) "energy" empty_world
    = Some (Ok tt,
            World (calls empty_world)
              (stdout empty_world
               ++ heading "energy"
                  :: map (report_line "energy") listed ++ [""]))
    /\ ranking "energy" Demo.xyz = listed ++ dropped
    /\ List.length dropped
       = if (-1 <? 0)%Z
         then Nat.min (Z.to_nat (- -1)) (List.length Demo.xyz)
         else List.length Demo.xyz - Z.to_nat (-1).
Proof.
  apply print_category_lists_prefix.
  repeat constructor; eexists; reflexivity.
Defined.

(** X8. When the vectors have the categories before [category] and some
    vector lacks [category], print_rankings prints the blocks of the
    categories before it and the heading of [category], and then raises
    KeyError for it: the report stops in the middle. *)
Theorem print_rankings_key_error {num : Type} {N : Number num}
  (before after : list string) (category : string)
  (playlists_audio_features : dict (dict num)) (top_amount : Z) (w : world) :
  (forall c, In c before -> Forall (ranked c) playlists_audio_features) ->
  Exists (fun x => get category (snd x) = None) playlists_audio_features ->
  print_rankings (before ++ category :: after) playlists_audio_features
    top_amount w
  = Some (Raise (KeyError category),
          World (calls w)
            (stdout w
             ++ flat_map (block playlists_audio_features top_amount) before
             ++ [heading category])).
Proof.
  intros Hbefore Hlacks. unfold print_rankings. rewrite for_each_M_app.
  erewrite bind_ok by (apply print_rankings_blocks; exact Hbefore).
  cbn [for_each_M]. apply bind_raise.
  rewrite print_category_key_error by assumption.
  cbn [calls stdout]. now rewrite <- app_assoc.
Qed.

Lemma print_rankings_key_error_witness :
  print_rankings (["energy"] ++ "tempo" :: ["valence"]) Demo.xyz 10
    empty_world
  = Some (Raise (KeyError "tempo"),
          World (calls empty_world)
            (stdout empty_world
             ++ flat_map (block Demo.xyz 10) ["energy"]
             ++ [heading "tempo"])).
Proof.
  apply print_rankings_key_error.
  - intros c [<- | []]. repeat constructor; eexists; reflexivity.
  - constructor. reflexivity.
Defined.

(** ** main, when it completes *)

Section MainFacts.
Context {num : Type} {N : Number num} (sp : @Spotify num).

Lemma get_playlists_NoDup collab_only fuel w w1 (playlists : dict string) :
  get_playlists sp collab_only fuel w = Some (Ok playlists, w1) ->
  NoDup (keys playlists).
Proof.
  intros H. apply bind_inv_ok in H as (fetched & w0 & _ & H).
  unfold ret in H. injection H as <- _.
  unfold resulting_playlists. rewrite resulting_filter.
  apply NoDup_assigned. constructor.
Qed.

(** A round of the loop of main appends the vector of a new name. *)
Lemma average_playlist_ok fuel playlists paf playlist w paf' w' :
  ~ In playlist (keys paf) ->
  average_playlist sp fuel playlists paf playlist w = Some (Ok paf', w') ->
  exists averages,
    paf' = paf ++ [(playlist, averages)] /\ averaged (playlist, averages).
Proof.
  intros Hnew H. unfold average_playlist in H.
  apply bind_inv_ok in H as (fs & w1 & _ & H).
  apply bind_inv_ok in H as (averages & w2 & Havg & H).
  unfold lift in Havg. unfold ret in H.
  injection Havg as Havg _. injection H as <- _.
  exists averages. split; [now apply set_fresh | now exists fs].
Qed.

Lemma averaged_loop fuel playlists (l : list string) :
  forall paf w paf' w',
    NoDup (keys paf ++ l) -> Forall averaged paf ->
    for_each_M (average_playlist sp fuel playlists) l paf w
    = Some (Ok paf', w') ->
    keys paf' = keys paf ++ l /\ Forall averaged paf'.
Proof.
  induction l as [|playlist l IH]; intros paf w paf' w' Hnd Hall H.
  - unfold for_each_M, ret in H. injection H as <- _.
    now rewrite app_nil_r.
  - cbn [for_each_M] in H. apply bind_inv_ok in H as (paf1 & w1 & Hstep & H).
    apply average_playlist_ok in Hstep as (averages & -> & Havg).
    + apply IH in H as [Hkeys Hall'].
      * split; [|exact Hall']. rewrite Hkeys. unfold keys.
        rewrite map_app. simpl. now rewrite <- app_assoc.
      * unfold keys. rewrite map_app. simpl. now rewrite <- app_assoc.
      * apply Forall_app. split; [exact Hall | now constructor].
    + apply NoDup_remove_2 in Hnd. intros Hin. apply Hnd.
      apply in_or_app. now left.
Qed.

(** For a category, either every vector has it or some vector lacks it. *)
Lemma ranked_or_lacking category (paf : dict (dict num)) :
  Forall (ranked category) paf
  \/ Exists (fun x => get category (snd x) = None) paf.
Proof.
  induction paf as [|x paf [IH | IH]]; [left; constructor | |right; now right].
  destruct (get category (snd x)) as [k|] eqn:E.
  - left. constructor; [|exact IH]. exists k. unfold rank_value, getitem.
    now rewrite E.
  - right. now left.
Qed.

(** A report that completes is made of the blocks of its categories. *)
Lemma print_rankings_ok_blocks names (paf : dict (dict num)) top_amount :
  forall w w',
    print_rankings names paf top_amount w = Some (Ok tt, w') ->
    w' = World (calls w) (stdout w ++ flat_map (block paf top_amount) names).
Proof.
  unfold print_rankings.
  induction names as [|category names IH]; intros w w' H;
    cbn [for_each_M flat_map] in *.
  - unfold ret in H. injection H as <-. now rewrite app_nil_r, world_eta.
  - apply bind_inv_ok in H as ([] & w1 & Hblock & H).
    destruct (ranked_or_lacking category paf) as [Hall | Hlacks].
    + rewrite print_category_block in Hblock by assumption.
      injection Hblock as <-. apply IH in H. subst w'. cbn [calls stdout].
      now rewrite <- app_assoc.
    + rewrite print_category_key_error in Hblock by assumption.
      discriminate.
Qed.

(** What main has done when it completes. *)
Lemma main_completed names fuel w w' :
  main names sp fuel w = Some (Ok tt, w') ->
  exists playlists w1 vectors,
    get_playlists sp false fuel w = Some (Ok playlists, w1)
    /\ keys vectors = keys playlists
    /\ Forall averaged vectors
    /\ stdout w' = stdout w ++ flat_map (block vectors 10) names.
Proof.
  intros H. unfold main in H.
  apply bind_inv_ok in H as (playlists & w1 & Hget & H).
  apply bind_inv_ok in H as (paf & w2 & Hloop & H).
  exists playlists, w1, paf. split; [exact Hget|].
  pose proof (get_playlists_NoDup _ _ _ Hget) as Hnd.
  apply averaged_loop in Hloop as Hpaf; [|exact Hnd | constructor].
  destruct Hpaf as [Hkeys Hall]. split; [exact Hkeys|]. split; [exact Hall|].
  apply print_rankings_ok_blocks in H. subst w'. cbn [stdout]. f_equal.
  transitivity (stdout w1).
  - eapply silent_for_each_M; [|exact Hloop].
    intros; apply silent_average_playlist.
  - eapply silent_get_playlists; exact Hget.
Qed.

(** The vectors that average_audio_features returns can be ranked by each
    of the names that print_rankings is given in main. *)
Lemma averaged_ranked (vectors : dict (dict num)) category :
  Forall averaged vectors -> In category audio_feature_names ->
  Forall (ranked category) vectors.
Proof.
  intros Hall Hin. eapply Forall_impl; [|exact Hall].
  intros x [fs Hfs]. apply ranked_by_descriptor; [|exact Hin].
  exact (average_keys _ Hfs).
Qed.

End MainFacts.

(** X9. Whenever main completes, it has averaged one vector for each name
    of the mapping of get_playlists, in the order of that mapping, each of
    them a result of average_audio_features, and what it printed is the
    report of these vectors: the blocks of the categories, ten playlists at
    most in each, and nothing else. *)
Theorem main_reports_every_playlist {num : Type} {N : Number num}
  (names : list string) (sp : @Spotify num) (fuel : nat) (w w' : world) :
  main names sp fuel w = Some (Ok tt, w') ->
  exists playlists w1 vectors,
    get_playlists sp false fuel w = Some (Ok playlists, w1)
    /\ keys vectors = keys playlists
    /\ Forall averaged vectors
    /\ stdout w' = stdout w ++ flat_map (block vectors 10) names.
Proof. apply main_completed. Qed.

Lemma main_reports_every_playlist_witness :
  exists playlists w1 vectors,
    get_playlists Demo.sp false 2 empty_world = Some (Ok playlists, w1)
    /\ keys vectors = keys playlists
    /\ Forall averaged vectors
    /\ stdout demo_final
       = stdout empty_world ++ flat_map (block vectors 10) descriptors.
Proof.
  apply (@main_reports_every_playlist Q _ descriptors Demo.sp 2).
  vm_compute. reflexivity.
Defined.

(** ** The order of the mapping of get_playlists *)

Lemma existsb_eqb_In (m : string) (l : list string) :
  existsb (String.eqb m) l = true <-> In m l.
Proof.
  rewrite existsb_exists. split.
  - intros (x & Hin & E). apply String.eqb_eq in E. now subst.
  - intros Hin. exists m. split; [exact Hin | apply String.eqb_refl].
Qed.

Lemma filter_twice {A : Type} (p q : A -> bool) (l : list A) :
  filter p (filter q l) = filter (fun x => p x && q x) l.
Proof.
  induction l as [|x l IH]; simpl; [reflexivity|].
  destruct (q x); simpl; rewrite ?andb_true_r, ?andb_false_r;
    [destruct (p x)|]; now rewrite IH.
Qed.

Lemma filter_true {A : Type} (l : list A) : filter (fun _ => true) l = l.
Proof. induction l as [|x l IH]; simpl; congruence. Qed.

(** The names are stored in the order of their first assignment. *)
Lemma keys_assigned_order (l : list Playlist.t) :
  forall d : dict string,
    keys (fold_left assign l d)
    = keys d
      ++ filter (fun m => negb (existsb (String.eqb m) (keys d)))
           (first_occurrences (map Playlist.name l)).
Proof.
  induction l as [|item l IH]; intros d; cbn [fold_left map first_occurrences].
  - simpl. now rewrite app_nil_r.
  - rewrite IH.
    destruct (existsb (String.eqb (Playlist.name item)) (keys d)) eqn:E.
    + apply existsb_eqb_In in E as Hin.
      assert (keys (assign d item) = keys d) as ->
        by (unfold assign; now apply keys_set_present).
      cbn [filter]. rewrite E. cbn [negb]. f_equal.
      rewrite filter_twice. apply filter_ext. intros m.
      destruct (String.eqb_spec m (Playlist.name item)) as [-> | _];
        [now rewrite E | now rewrite andb_true_r].
    + assert (~ In (Playlist.name item) (keys d)) as Hnew.
      { intros Hin. apply existsb_eqb_In in Hin. congruence. }
      assert (keys (assign d item) = keys d ++ [Playlist.name item]) as ->.
      { unfold assign. rewrite set_fresh by exact Hnew.
        unfold keys. now rewrite map_app. }
      cbn [filter]. rewrite E. cbn [negb].
      rewrite <- app_assoc. cbn [app]. do 2 f_equal.
      rewrite filter_twice. apply filter_ext. intros m.
      rewrite existsb_app. cbn [existsb].
      rewrite orb_false_r, negb_orb. reflexivity.
Qed.

(** X10. The names of the mapping that get_playlists returns are the names
    of the kept playlists in fetch order, each at the place of its first
    occurrence: a later playlist of the same name changes the id and not the
    order. *)
Theorem get_playlists_order {num : Type} {N : Number num}
  (sp : @Spotify num) (collab_only : bool) (fuel : nat) (w w' : world)
  (playlists : list Playlist.t) :
  fetch_playlists sp fuel w = Some (Ok playlists, w') ->
  exists resulting,
    get_playlists sp collab_only fuel w = Some (Ok resulting, w')
    /\ keys resulting
       = first_occurrences
           (map Playlist.name (filter (kept collab_only) playlists)).
Proof.
  intros Hfetch. eexists. split.
  - unfold get_playlists, bind. rewrite Hfetch. reflexivity.
  - unfold resulting_playlists. rewrite resulting_filter, keys_assigned_order.
    simpl. apply filter_true.
Qed.

Lemma get_playlists_order_witness :
  exists resulting,
    get_playlists Demo.sp false 2 empty_world
    = Some (Ok resulting,
            World
              [CurrentUserPlaylists; Next "me/playlists?offset=1";
               Next "me/playlists?offset=2"] [])
    /\ keys resulting
       = first_occurrences
           (map Playlist.name
              (filter (kept false) [Demo.mix_a; Demo.solo; Demo.mix_c])).
Proof.
  apply get_playlists_order. reflexivity.
Defined.

(** X11. get_playlists with [collab_only] set builds the mapping it builds
    without it from the collaborative playlists alone. *)
Theorem resulting_playlists_collab_only (playlists : list Playlist.t) :
  resulting_playlists true playlists
  = resulting_playlists false (filter Playlist.collaborative playlists).
Proof.
  unfold resulting_playlists. rewrite !resulting_filter. f_equal.
  rewrite filter_twice. apply filter_ext. intros item. unfold kept.
  destruct (Playlist.collaborative item); reflexivity.
Qed.

(** ** An account without playlists *)

(** X12. For an account whose only page of playlists is empty, main sends
    the one request for the playlists and prints, for each category, the
    heading and the empty line, with no playlist between them; it does not
    raise. *)
Theorem main_without_playlists {num : Type} {N : Number num}
  (names : list string) (sp : @Spotify num) (fuel : nat) (w : world) :
  items (current_user_playlists sp) = [] ->
  truthy (next (current_user_playlists sp)) = None ->
  main names sp fuel w
  = Some (Ok tt,
          World (calls w ++ [CurrentUserPlaylists])
            (stdout w ++ flat_map (fun category => [heading category; ""]) names)).
Proof.
  intros Hitems Hnext. unfold main.
  rewrite bind_ok
    with (a := @nil (string * string))
         (w' := World (calls w ++ [CurrentUserPlaylists]) (stdout w)).
  - cbn [keys map for_each_M].
    rewrite bind_ok
      with (a := @nil (string * dict num))
           (w' := World (calls w ++ [CurrentUserPlaylists]) (stdout w))
      by reflexivity.
    rewrite print_rankings_blocks by constructor.
    cbn [calls stdout]. reflexivity.
  - unfold get_playlists, fetch_playlists, bind, request.
    destruct fuel; simpl; rewrite Hnext; unfold ret; now rewrite Hitems.
Qed.

Lemma main_without_playlists_witness :
  main (@descriptors Q _) DemoLoop.empty_account 0 empty_world
  = Some (Ok tt,
          World (calls empty_world ++ [CurrentUserPlaylists])
            (stdout empty_world
             ++ flat_map (fun category => [heading category; ""])
                  descriptors)).
Proof.
  apply main_without_playlists; reflexivity.
Defined.

(** ** The descriptors averaged and the descriptors ranked *)

(** C9. The descriptors that average_audio_features accumulates, and the
    keys of every mapping it returns, are the names of [audio_feature_names];
    with these names print_rankings, and main when it completes, print one
    block for each descriptor accumulated, in the same order, and no other:
    every averaged vector can be ranked by each of them. *)
Theorem descriptors_are_audio_feature_names {num : Type} {N : Number num} :
  keys (@cumulative_audio_features num N) = audio_feature_names
  /\ (forall (audio_features : list (@feature num)) averages,
        average_audio_features audio_features = Ok averages ->
        keys averages = audio_feature_names)
  /\ (forall (vectors : dict (dict num)) (top_amount : Z) (w : world),
        Forall averaged vectors ->
        print_rankings audio_feature_names vectors top_amount w
        = Some (Ok tt,
                World (calls w)
                  (stdout w
                   ++ flat_map (block vectors top_amount)
                        (keys (@cumulative_audio_features num N)))))
  /\ (forall (sp : @Spotify num) (fuel : nat) (w w' : world),
        main audio_feature_names sp fuel w = Some (Ok tt, w') ->
        exists vectors,
          Forall averaged vectors
          /\ stdout w'
             = stdout w
               ++ flat_map (block vectors 10)
                    (keys (@cumulative_audio_features num N))).
Proof.
  split; [reflexivity|]. split; [|split].
  - intros fs averages H. now rewrite (average_keys _ H).
  - intros vectors top_amount w Hall.
    apply print_rankings_blocks. intros category Hin.
    now apply averaged_ranked.
  - intros sp fuel w w' H.
    destruct (main_completed _ _ _ _ H)
      as (playlists & w1 & vectors & _ & _ & Hall & Hout).
    exists vectors. split; [exact Hall | exact Hout].
Qed.

Lemma descriptors_are_audio_feature_names_witness :
  keys (@cumulative_audio_features Q _) = audio_feature_names
  /\ (forall (audio_features : list (@feature Q)) averages,
        average_audio_features audio_features = Ok averages ->
        keys averages = audio_feature_names)
  /\ (forall (vectors : dict (dict Q)) (top_amount : Z) (w : world),
        Forall averaged vectors ->
        print_rankings audio_feature_names vectors top_amount w
        = Some (Ok tt,
                World (calls w)
                  (stdout w
                   ++ flat_map (block vectors top_amount)
                        (keys (@cumulative_audio_features Q _)))))
  /\ (forall (sp : @Spotify Q) (fuel : nat) (w w' : world),
        main audio_feature_names sp fuel w = Some (Ok tt, w') ->
        exists vectors,
          Forall averaged vectors
          /\ stdout w'
             = stdout w
               ++ flat_map (block vectors 10)
                    (keys (@cumulative_audio_features Q _))).
Proof. exact (@descriptors_are_audio_feature_names Q _). Defined.
